(** * local-echo: verification of [lib/Utils.js]

    A shallow embedding of the text-measurement, cursor-geometry,
    shell-completeness and autocomplete helpers of [src/lib/Utils.js],
    and the properties of them that the specification states.

    JavaScript strings are sequences of UTF-16 code units; they are modelled
    as lists of integers.  JavaScript numbers that the code uses as offsets,
    widths, rows and columns are modelled as [Z]. *)

From Stdlib Require Import String Ascii ZArith Arith Bool List Sorted Permutation
  Lia.
From Equations Require Import Equations.
Import ListNotations.

Local Open Scope Z_scope.

(** ** Strings *)

Module JS.

(** A string is the list of its UTF-16 code units. *)
Definition jsstring := list Z.

(** Code units of an ASCII literal, to write the examples of the
    specification as they are printed there. *)
Fixpoint js (s : string) : jsstring :=
  match s with
  | EmptyString => []
  | String a rest => Z.of_nat (nat_of_ascii a) :: js rest
  end.

(** [s.length] *)
Definition len (s : jsstring) : Z := Z.of_nat (length s).

(** [s.charAt(i)] for [i >= 0]: the one-unit string at [i], or the empty
    string when [i] is not an index of [s]. *)
Definition charAt (s : jsstring) (i : nat) : jsstring :=
  match nth_error s i with
  | Some c => [c]
  | None => []
  end.

(** [s.slice(a, b)] for [0 <= a <= b]. *)
Definition slice (s : jsstring) (a b : nat) : jsstring :=
  firstn (b - a) (skipn a s).

(** [s == t] on strings. *)
Fixpoint str_eqb (s t : jsstring) : bool :=
  match s, t with
  | [], [] => true
  | x :: s', y :: t' => (x =? y) && str_eqb s' t'
  | _, _ => false
  end.

(** [s.startsWith(p)] *)
Fixpoint startsWith (s p : jsstring) {struct p} : bool :=
  match p with
  | [] => true
  | x :: p' =>
      match s with
      | [] => false
      | y :: s' => (y =? x) && startsWith s' p'
      end
  end.

(** [s.endsWith(p)] *)
Definition endsWith (s p : jsstring) : bool :=
  startsWith (rev s) (rev p).

Definition in_range (lo hi c : Z) : bool := (lo <=? c) && (c <=? hi).

(** White space and line terminators, as [String.prototype.trim] strips
    them. *)
Definition is_space (c : Z) : bool :=
  in_range 0x09 0x0D c || (c =? 0x20) || (c =? 0xA0) || (c =? 0x1680)
  || in_range 0x2000 0x200A c || (c =? 0x2028) || (c =? 0x2029)
  || (c =? 0x202F) || (c =? 0x205F) || (c =? 0x3000) || (c =? 0xFEFF).

Fixpoint trimStart (s : jsstring) : jsstring :=
  match s with
  | [] => []
  | c :: t => if is_space c then trimStart t else s
  end.

(** [s.trim()] *)
Definition trim (s : jsstring) : jsstring :=
  rev (trimStart (rev (trimStart s))).

End JS.
Export JS.

(** ** Regular expressions

    The regular expressions of the file are kept as syntax and run by a
    backtracking matcher, greedy as the JavaScript one is.  Only the
    constructs that occur in [Utils.js] are there. *)

Module Regex.

Inductive regex : Type :=
| Lit (c : Z)                      (* a literal code unit *)
| Class (p : Z -> bool)            (* [...] *)
| Seq (r1 r2 : regex)              (* r1 r2 *)
| Alt (r1 r2 : regex)              (* r1|r2 *)
| Opt (r : regex)                  (* r? *)
| Rep (lo hi : nat) (r : regex)    (* r{lo,hi} *)
| ClassPlus (p : Z -> bool)        (* [...]+ *)
| Eol.                             (* $ with the m flag *)

(** The line terminators of the language: LF, CR, LS and PS. *)
Definition is_line_terminator (c : Z) : bool :=
  (c =? 0x0A) || (c =? 0x0D) || (c =? 0x2028) || (c =? 0x2029).

(** [rmatch r s k]: match [r] at the start of [s] and hand what is left of
    [s] to the continuation [k]; the first alternative, in the order of the
    backtracking search, that [k] accepts is the answer. *)
Fixpoint rmatch {A : Type} (r : regex) (s : jsstring)
         (k : jsstring -> option A) {struct r} : option A :=
  match r with
  | Lit c =>
      match s with
      | x :: t => if x =? c then k t else None
      | [] => None
      end
  | Class p =>
      match s with
      | x :: t => if p x then k t else None
      | [] => None
      end
  | Seq r1 r2 => rmatch r1 s (fun t => rmatch r2 t k)
  | Alt r1 r2 =>
      match rmatch r1 s k with
      | Some v => Some v
      | None => rmatch r2 s k
      end
  | Opt r1 =>
      match rmatch r1 s k with
      | Some v => Some v
      | None => k s
      end
  | Rep lo hi r1 =>
      (fix rep (lo hi : nat) (s : jsstring) {struct hi} : option A :=
         match hi with
         | O => match lo with O => k s | S _ => None end
         | S hi' =>
             match rmatch r1 s (fun t => rep (Nat.pred lo) hi' t) with
             | Some v => Some v
             | None => match lo with O => k s | S _ => None end
             end
         end) lo hi s
  | ClassPlus p =>
      (fix plus (s : jsstring) : option A :=
         match s with
         | x :: t =>
             if p x then
               match plus t with
               | Some v => Some v
               | None => k t
               end
             else None
         | [] => None
         end) s
  | Eol =>
      match s with
      | [] => k s
      | x :: _ => if is_line_terminator x then k s else None
      end
  end.

(** The length of the match of [r] at the start of [s], if there is one. *)
Definition match_at (r : regex) (s : jsstring) : option nat :=
  rmatch r s (fun t => Some (length s - length t)%nat).

(** [s.replace(r, '')] for a regular expression with the [g] flag: the text
    is scanned from the left, every match is dropped and the scan resumes
    right after it.  (An empty match replaces nothing by nothing.) *)
Equations? replace_all (r : regex) (s : jsstring) : jsstring
  by wf (length s) lt :=
replace_all r [] := [];
replace_all r (c :: t) with match_at r (c :: t) => {
  | Some (S n) := replace_all r (skipn n t);
  | _ := c :: replace_all r t }.
Proof.
  all: simpl; try lia.
  pose proof (length_skipn n t). lia.
Qed.

(** [r.test(s)], and [s.match(r) != null], for a regular expression whose
    [lastIndex] is 0: is there a match at some position of [s]? *)
Fixpoint rx_test (r : regex) (s : jsstring) : bool :=
  match match_at r s with
  | Some _ => true
  | None =>
      match s with
      | [] => false
      | _ :: t => rx_test r t
      end
  end.

(** [s.match(r) || []] for a regular expression with the [g] flag: the
    matched texts, from left to right; [match] gives [null] when there is
    none, which [|| []] turns into the empty array. *)
Equations? match_global (r : regex) (s : jsstring) : list jsstring
  by wf (length s) lt :=
match_global r [] := [];
match_global r (c :: t) with match_at r (c :: t) => {
  | Some (S n) := (c :: firstn n t) :: match_global r (skipn n t);
  | _ := match_global r t }.
Proof.
  all: simpl; try lia.
  pose proof (length_skipn n t). lia.
Qed.

(** [s.split(r)] for a regular expression that is one capturing group, as
    [/(...)/g]: the texts between the matches, each match (the text of
    the group) spliced in after the text before it.  [cur] holds, in
    reverse, the text since the last match.  The separators of this file
    are never empty; an empty match is passed over. *)
Equations? split_captured (r : regex) (cur : jsstring) (s : jsstring)
  : list jsstring by wf (length s) lt :=
split_captured r cur [] := [rev cur];
split_captured r cur (c :: t) with match_at r (c :: t) => {
  | Some (S n) :=
      rev cur :: (c :: firstn n t) :: split_captured r [] (skipn n t);
  | _ := split_captured r (c :: cur) t }.
Proof.
  all: simpl; try lia.
  pose proof (length_skipn n t). lia.
Qed.

(** The loop [while ((match = rx.exec(input))) { ... }] of a regular
    expression with the [g] flag whose matches are not empty: [exec]
    looks for the next match from [lastIndex] on and leaves [lastIndex]
    right after it.  [pos] is the index in the input of the head of [s];
    each match is reported as [(match.index, match[0].length)]. *)
Equations? exec_loop (r : regex) (pos : Z) (s : jsstring)
  : list (Z * Z) by wf (length s) lt :=
exec_loop r pos [] := [];
exec_loop r pos (c :: t) with match_at r (c :: t) => {
  | Some (S n) :=
      (pos, Z.of_nat (S n))
        :: exec_loop r (pos + Z.of_nat (S n)) (skipn n t);
  | _ := exec_loop r (pos + 1) t }.
Proof.
  all: simpl; try lia.
  pose proof (length_skipn n t). lia.
Qed.

End Regex.
Export Regex.

(** ** Text measurement *)

Definition ESC : Z := 0x1B.

Definition is_digit (c : Z) : bool := in_range 48 57 c.

(** [[m|K]]: inside a class the bar is a member like any other. *)
Definition is_csi_final (c : Z) : bool :=
  (c =? 109) || (c =? 124) || (c =? 75).

(** [/\x1B\[([0-9]{1,2}(;[0-9]{1,2})?)?[m|K]/] *)
Definition ansi_rx : regex :=
  Seq (Lit ESC)
   (Seq (Lit 91)
    (Seq (Opt (Seq (Rep 1 2 (Class is_digit))
                   (Opt (Seq (Lit 59) (Rep 1 2 (Class is_digit))))))
         (Class is_csi_final))).

(** [removeANSI(input)] *)
Definition removeANSI (input : jsstring) : jsstring :=
  replace_all ansi_rx input.


(** ** Word boundaries *)

(** [\w] *)
Definition is_word (c : Z) : bool :=
  in_range 65 90 c || in_range 97 122 c || in_range 48 57 c || (c =? 95).

(** [/\w+/g] *)
Definition word_rx : regex := ClassPlus is_word.

(** [wordBoundaries(input, leftSide)] *)
Definition wordBoundaries (input : jsstring) (leftSide : bool) : list Z :=
  map (fun m : Z * Z => if leftSide then fst m else fst m + snd m)
      (exec_loop word_rx 0 input).

(** [closestLeftBoundary(input, offset)] *)
Definition closestLeftBoundary (input : jsstring) (offset : Z) : Z :=
  match find (fun x => x <? offset) (rev (wordBoundaries input true)) with
  | None => 0
  | Some found => found
  end.

(** [closestRightBoundary(input, offset)] *)
Definition closestRightBoundary (input : jsstring) (offset : Z) : Z :=
  match find (fun x => x >? offset) (wordBoundaries input false) with
  | None => len input
  | Some found => found
  end.

(** ** Character widths *)

(** [[\u200B-\u200D\uFEFF]] *)
Definition is_zero_width (c : Z) : bool :=
  in_range 0x200B 0x200D c || (c =? 0xFEFF).

(** [[\u0591-\u05F4\uFB1D-\uFBF4]] *)
Definition is_special (c : Z) : bool :=
  in_range 0x0591 0x05F4 c || in_range 0xFB1D 0xFBF4 c.

(** The ranges of the class of wide characters, in the order of the
    source. *)
Definition wide_ranges : list (Z * Z) :=
  [ (0x1100, 0x115F); (0x11A3, 0x11A7); (0x11FA, 0x11FF); (0x2329, 0x232A);
    (0x2E80, 0x2E99); (0x2E9B, 0x2EF3); (0x2F00, 0x2FD5); (0x2FF0, 0x2FFB);
    (0x3000, 0x303E); (0x3041, 0x3096); (0x3099, 0x30FF); (0x3105, 0x312F);
    (0x3131, 0x318E); (0x3190, 0x31BA); (0x31C0, 0x31E3); (0x31F0, 0x31FF);
    (0x3200, 0x321E); (0x3220, 0x3247); (0x3250, 0x32FE); (0x3300, 0x33FF);
    (0x3400, 0x4DBF); (0x4E00, 0x9FFC); (0xA000, 0xA48C); (0xA490, 0xA4C6);
    (0xA960, 0xA97C); (0xAC00, 0xD7A3); (0xF900, 0xFA6D); (0xFA70, 0xFAD9);
    (0xFE10, 0xFE19); (0xFE30, 0xFE52); (0xFE54, 0xFE66); (0xFE68, 0xFE6B);
    (0xFF01, 0xFF60); (0xFFE0, 0xFFE6) ].

Definition is_wide (c : Z) : bool :=
  existsb (fun r : Z * Z => in_range (fst r) (snd r) c) wide_ranges.

(** The width that one turn of the loop of [calcWidth] adds for the
    character [c = str.charAt(i)]. *)
Definition char_width (c : Z) : Z :=
  if rx_test (Class is_zero_width) [c] then 0
  else if rx_test (Class is_special) [c] then 0
  else if rx_test (Class is_wide) [c] then 2
  else 1.

(** [calcWidth(str)] *)
Definition calcWidth (str : jsstring) : Z :=
  fold_left (fun acc c => acc + char_width c) str 0.

(** ** Cursor geometry *)

Record Position : Type := { row : Z; col : Z }.

Definition LF : jsstring := [0x0A].

(** The body of the loop of [offsetToColRow] for the character [chr]. *)
Definition advance (chr : jsstring) (maxCols : Z) (p : Position)
  : Position :=
  if str_eqb chr LF then {| row := row p + 1; col := 0 |}
  else
    let col' := col p + calcWidth chr in
    if col' >? maxCols then {| row := row p + 1; col := 0 |}
    else {| row := row p; col := col' |}.

(** [count] turns of [for (...; ++i)] from index [i] on. *)
Fixpoint walk (count : nat) (i : nat) (input : jsstring) (maxCols : Z)
         (p : Position) : Position :=
  match count with
  | O => p
  | S count' =>
      walk count' (S i) input maxCols (advance (charAt input i) maxCols p)
  end.

(** [offsetToColRow(input, offset, maxCols)]; the loop
    [for (let i = 0; i < offset; ++i)] makes [offset] turns, none when
    [offset <= 0]. *)
Definition offsetToColRow (input : jsstring) (offset maxCols : Z)
  : Position :=
  let ansi_input := input in
  let input := removeANSI input in
  let offset := offset - (len ansi_input - len input) in
  walk (Z.to_nat offset) 0 input maxCols {| row := 0; col := 0 |}.

(** [countLines(input, maxCols)] *)
Definition countLines (input : jsstring) (maxCols : Z) : Z :=
  row (offsetToColRow input (len input) maxCols) + 1.

(** ** Shell-completeness heuristics *)

(** The three regular expressions of [isIncompleteInput]: a single quote,
    a double quote, and [/(\|\||\||&&)/g]. *)
Definition single_quote_rx : regex := Lit 39.
Definition double_quote_rx : regex := Lit 34.
Definition operator_rx : regex :=
  Alt (Seq (Lit 124) (Lit 124)) (Alt (Lit 124) (Seq (Lit 38) (Lit 38))).

Definition BACKSLASH : Z := 92.

(** [isIncompleteInput(input)]; [pop] gives the last element of the array
    that [split] returns, which always has one. *)
Definition isIncompleteInput (input : jsstring) : bool :=
  if str_eqb (trim input) [] then false
  else if negb (length (match_global single_quote_rx input) mod 2 =? 0)%nat
  then true
  else if negb (length (match_global double_quote_rx input) mod 2 =? 0)%nat
  then true
  else if str_eqb (trim (last (split_captured operator_rx [] input) [])) []
  then true
  else if endsWith input [BACKSLASH]
          && negb (endsWith input [BACKSLASH; BACKSLASH])
  then true
  else false.

(** [/[^\\][ \t]$/m] *)
Definition tailing_whitespace_rx : regex :=
  Seq (Class (fun c => negb (c =? BACKSLASH)))
      (Seq (Class (fun c => (c =? 32) || (c =? 9))) Eol).

(** [hasTailingWhitespace(input)] *)
Definition hasTailingWhitespace (input : jsstring) : bool :=
  rx_test tailing_whitespace_rx input.

(** ** Autocompletion *)

(** [arr[i]]: [undefined] when [i] is not an index of the array. *)
Definition array_get {A : Type} (arr : list A) (i : Z) : option A :=
  if i <? 0 then None else nth_error arr (Z.to_nat i).

Section Autocomplete.

(** The tokenizer [parse] comes from the package [shell-quote]: it turns a
    command line into strings and, for operators, globs and comments,
    objects.  It is a parameter of the development, and so are the
    objects, the fixed arguments of a callback and what a callback may
    throw. *)
Variable object : Type.

Inductive token : Type :=
| TString (s : jsstring)
| TObject (o : object).

Variable parse : jsstring -> list token.
Variable value : Type.
Variable error : Type.

(** A call of a callback returns an array of candidates or throws. *)
Inductive outcome : Type :=
| Return (candidates : list jsstring)
| Throw (e : error).

(** [{ fn, args }]; [fn] is called as [fn(index, tokens, ...args)]. *)
Record callback : Type :=
  { fn : Z -> list token -> list value -> outcome;
    args : list value }.

(** [v || ''] for [v = arr[i]] an element of the token array: the
    empty string stands in for [undefined] and for the empty string. *)
Definition or_empty (v : option token) : token :=
  match v with
  | None => TString []
  | Some (TString []) => TString []
  | Some t => t
  end.

(** The string that [startsWith] makes of its argument. *)
Definition toString (t : token) : jsstring :=
  match t with
  | TString s => s
  | TObject _ => js "[object Object]"
  end.

(** [tokens.pop() || ''] *)
Definition pop_or_empty (tokens : list token) : token :=
  or_empty (array_get tokens (Z.of_nat (length tokens) - 1)).

(** [getLastToken(input)] *)
Definition getLastToken (input : jsstring) : token :=
  if str_eqb (trim input) [] then TString []
  else if hasTailingWhitespace input then TString []
  else pop_or_empty (parse input).

(** One turn of the [reduce] of [collectAutocompleteCandidates]: the
    accumulator and what [console.error] has been given so far. *)
Definition collect_step (index : Z) (tokens : list token)
           (acc : list jsstring * list error) (cb : callback)
  : list jsstring * list error :=
  let (candidates, console) := acc in
  match fn cb index tokens (args cb) with
  | Return found => (candidates ++ found, console)
  | Throw e => (candidates, console ++ [e])
  end.

(** [collectAutocompleteCandidates(callbacks, input)]: the candidates
    it returns and the errors it has logged. *)
Definition collectAutocompleteCandidates
           (callbacks : list callback) (input : jsstring)
  : list jsstring * list error :=
  let tokens := parse input in
  let index := Z.of_nat (length tokens) - 1 in
  let expr := or_empty (array_get tokens index) in
  let '(index, expr) :=
    if str_eqb (trim input) [] then (0, TString [])
    else if hasTailingWhitespace input then (index + 1, TString [])
    else (index, expr) in
  let '(all, console) :=
    fold_left (collect_step index tokens) callbacks ([], []) in
  (filter (fun txt => startsWith txt (toString expr)) all, console).

End Autocomplete.

Arguments TString {object} s.
Arguments TObject {object} o.
Arguments Return {error} candidates.
Arguments Throw {error} e.
Arguments fn {object value error} c.
Arguments args {object value error} c.
Arguments Build_callback {object value error} fn args.
Arguments or_empty {object} v.
Arguments toString {object} t.
Arguments pop_or_empty {object} tokens.
Arguments getLastToken {object} parse input.
Arguments collect_step {object value error} index tokens acc cb.
Arguments collectAutocompleteCandidates {object} parse {value error}
  callbacks input.

(** A stand-in for the tokenizer on command lines that have no quotes,
    escapes, operators or globs: the words between blanks.  It is what the
    examples are run with. *)
Fixpoint words (cur : jsstring) (s : jsstring) : list jsstring :=
  match s with
  | [] => match cur with [] => [] | _ => [rev cur] end
  | c :: t =>
      if is_space c then
        match cur with [] => words [] t | _ => rev cur :: words [] t end
      else words (c :: cur) t
  end.

Definition words_tokenizer (s : jsstring) : list (@token Empty_set) :=
  map TString (words [] s).

(** What [getSharedFragment] gives: a string, [null], or the [TypeError]
    of reading [candidates[0].length] in an empty array. *)
Inductive shared : Type :=
| Str (s : jsstring)
| Null
| TypeError.

(** The [for] loop of [getSharedFragment]: [Some] of what it returns, or
    [None] when it runs to its end. *)
Fixpoint check_candidates (oldFragment fragment : jsstring)
         (candidates : list jsstring) : option shared :=
  match candidates with
  | [] => None
  | c :: rest =>
      if negb (startsWith c oldFragment) then Some Null
      else if negb (startsWith c fragment) then Some (Str oldFragment)
      else check_candidates oldFragment fragment rest
  end.

(** [fragment + candidates[0].slice(fragment.length, fragment.length+1)] *)
Definition extend (fragment first : jsstring) : jsstring :=
  fragment ++ slice first (length fragment) (length fragment + 1).

(** [getSharedFragment(fragment, candidates)] *)
Equations? getSharedFragment (fragment : jsstring)
  (candidates : list jsstring) : shared
  by wf (length (hd [] candidates) - length fragment)%nat lt :=
getSharedFragment fragment [] := TypeError;
getSharedFragment fragment (first :: rest)
  with le_lt_dec (length first) (length fragment) => {
  | left _ := Str fragment;
  | right Hlt
      with check_candidates fragment (extend fragment first)
                            (first :: rest) => {
      | Some r := r;
      | None := getSharedFragment (extend fragment first) (first :: rest) } }.
Proof.
  unfold extend, slice. simpl.
  rewrite length_app, length_firstn, length_skipn. lia.
Qed.

(** * Vocabulary of the statements *)

(** The index into the stripped text that [offsetToColRow] walks up to. *)
Definition effective (input : jsstring) (offset : Z) : Z :=
  offset - (len input - len (removeANSI input)).

(** A wide character, for the examples. *)
Definition CJK : Z := 0x4E2D.

Definition hello_world : jsstring := js "hello world_1  foo".

Definition red_text : jsstring :=
  [ESC] ++ js "[1;31mred" ++ [ESC] ++ js "[0m".

(** An escape sequence with an ESC before it and a bracket and an [m]
    after it. *)
Definition nested_escape : jsstring := [ESC; ESC] ++ js "[m[m".

(** Is there a word character at index [i] of the text? *)
Definition word_at (input : jsstring) (i : Z) : bool :=
  (0 <=? i)
  && match nth_error input (Z.to_nat i) with
     | Some c => is_word c
     | None => false
     end.

(** [i] is where a maximal run of word characters starts: a word character
    that no word character precedes. *)
Definition is_word_start (input : jsstring) (i : Z) : bool :=
  word_at input i && negb (word_at input (i - 1)).

(** [i] is where a maximal run of word characters ends: the index after a
    word character that no word character follows. *)
Definition is_word_end (input : jsstring) (i : Z) : bool :=
  word_at input (i - 1) && negb (word_at input i).

(** The length of the run of characters of a class at the head of a text. *)
Fixpoint run (p : Z -> bool) (s : jsstring) : nat :=
  match s with
  | c :: t => if p c then S (run p t) else O
  | [] => O
  end.

(** The starts and the ends of the runs of word characters of [s], found
    in one pass; [prev] tells whether the character before [s] is a word
    character and [pos] is the index of the head of [s]. *)
Fixpoint word_starts (prev : bool) (pos : Z) (s : jsstring) : list Z :=
  match s with
  | [] => []
  | c :: t =>
      (if is_word c && negb prev then [pos] else [])
        ++ word_starts (is_word c) (pos + 1) t
  end.

Fixpoint word_ends (prev : bool) (pos : Z) (s : jsstring) : list Z :=
  match s with
  | [] => if prev then [pos] else []
  | c :: t =>
      (if prev && negb (is_word c) then [pos] else [])
        ++ word_ends (is_word c) (pos + 1) t
  end.

(** [matches r w rest]: the text [w], followed by [rest], is in the
    language of [r]. *)
Inductive matches : regex -> jsstring -> jsstring -> Prop :=
| m_lit (c : Z) (rest : jsstring) : matches (Lit c) [c] rest
| m_class (p : Z -> bool) (c : Z) (rest : jsstring) :
    p c = true -> matches (Class p) [c] rest
| m_seq (r1 r2 : regex) (w1 w2 rest : jsstring) :
    matches r1 w1 (w2 ++ rest) -> matches r2 w2 rest ->
    matches (Seq r1 r2) (w1 ++ w2) rest
| m_alt_l (r1 r2 : regex) (w rest : jsstring) :
    matches r1 w rest -> matches (Alt r1 r2) w rest
| m_alt_r (r1 r2 : regex) (w rest : jsstring) :
    matches r2 w rest -> matches (Alt r1 r2) w rest
| m_opt_some (r : regex) (w rest : jsstring) :
    matches r w rest -> matches (Opt r) w rest
| m_opt_none (r : regex) (rest : jsstring) : matches (Opt r) [] rest
| m_rep_stop (hi : nat) (r : regex) (rest : jsstring) :
    matches (Rep O hi r) [] rest
| m_rep_more (lo hi : nat) (r : regex) (w1 w2 rest : jsstring) :
    matches r w1 (w2 ++ rest) -> matches (Rep (Nat.pred lo) hi r) w2 rest ->
    matches (Rep lo (S hi) r) (w1 ++ w2) rest
| m_plus_one (p : Z -> bool) (c : Z) (rest : jsstring) :
    p c = true -> matches (ClassPlus p) [c] rest
| m_plus_more (p : Z -> bool) (c : Z) (w rest : jsstring) :
    p c = true -> matches (ClassPlus p) w rest ->
    matches (ClassPlus p) (c :: w) rest
| m_eol_end : matches Eol [] []
| m_eol_line (c : Z) (rest : jsstring) :
    is_line_terminator c = true -> matches Eol [] (c :: rest).

(** [[0-9]{1,2}]: one digit or two. *)
Definition is_param (d : jsstring) : bool :=
  match d with
  | [a] => is_digit a
  | [a; b] => is_digit a && is_digit b
  | _ => false
  end.

(** The parameters of a removed sequence: none, one, or two with a
    semicolon between them. *)
Inductive csi_params : jsstring -> Prop :=
| params_none : csi_params []
| params_one (d : jsstring) : is_param d = true -> csi_params d
| params_two (d1 d2 : jsstring) :
    is_param d1 = true -> is_param d2 = true ->
    csi_params (d1 ++ 59 :: d2).

(** The texts that the regular expression of [removeANSI] matches. *)
Definition csi_sequence (w : jsstring) : Prop :=
  exists ps f,
    w = ESC :: 91 :: ps ++ [f] /\ csi_params ps /\ is_csi_final f = true.

(** The characters that occur in the sequences that [removeANSI] takes
    out. *)
Definition csi_alphabet (c : Z) : bool :=
  (c =? ESC) || (c =? 91) || is_digit c || (c =? 59) || is_csi_final c.

(** An input of the examples: a coloured word on a line of its own. *)
Definition red_line : jsstring := red_text ++ [0x0A] ++ js "next".

Section CollectVocabulary.

Variable object : Type.
Variable parse : jsstring -> list (@token object).
Variable value : Type.
Variable error : Type.

Let callback : Type := @callback object value error.

(** What a callback adds to the candidates, and to the console. *)
Definition contribution (index : Z) (tokens : list (@token object))
           (cb : callback) : list jsstring :=
  match fn cb index tokens (args cb) with
  | Return found => found
  | Throw _ => []
  end.

Definition logged (index : Z) (tokens : list (@token object))
           (cb : callback) : list error :=
  match fn cb index tokens (args cb) with
  | Return _ => []
  | Throw e => [e]
  end.

(** The index and the text of the active token. *)
Definition active_index (input : jsstring) : Z :=
  let count := Z.of_nat (length (parse input)) in
  if str_eqb (trim input) [] then 0
  else if hasTailingWhitespace input then count
  else count - 1.

Definition active_text (input : jsstring) : jsstring :=
  if str_eqb (trim input) [] then []
  else if hasTailingWhitespace input then []
  else toString (pop_or_empty (parse input)).

(** The provider of the examples: [{fn: () => [git, grep, go], args: []}] *)
Definition git_grep_go : callback :=
  {| fn := fun _ _ _ => Return [js "git"; js "grep"; js "go"];
     args := [] |}.

End CollectVocabulary.

Arguments contribution {object value error} index tokens cb.
Arguments logged {object value error} index tokens cb.
Arguments active_index {object} parse input.
Arguments active_text {object} parse input.
Arguments git_grep_go {object value error}.

(** * Properties *)

(** ** Strings and classes *)

Lemma str_eqb_eq (s t : jsstring) : str_eqb s t = true <-> s = t.
Proof.
  revert t; induction s as [|x s IH]; intros [|y t]; simpl;
    try (split; [discriminate | congruence]); try tauto.
  rewrite andb_true_iff, Z.eqb_eq, IH.
  split; [intros [-> ->]; reflexivity | intros [= -> ->]; auto].
Qed.

Lemma rx_test_class (p : Z -> bool) (c : Z) : rx_test (Class p) [c] = p c.
Proof.
  unfold rx_test, match_at; simpl. destruct (p c); reflexivity.
Qed.

Lemma char_width_cases (c : Z) :
  char_width c =
  if is_zero_width c || is_special c then 0
  else if is_wide c then 2 else 1.
Proof.
  unfold char_width. rewrite !rx_test_class.
  destruct (is_zero_width c), (is_special c); reflexivity.
Qed.

Lemma char_width_range (c : Z) : 0 <= char_width c <= 2.
Proof.
  rewrite char_width_cases.
  destruct (is_zero_width c || is_special c), (is_wide c); lia.
Qed.

Lemma calcWidth_nil : calcWidth [] = 0.
Proof. reflexivity. Qed.

Lemma calcWidth_single (c : Z) : calcWidth [c] = char_width c.
Proof. reflexivity. Qed.

Lemma calcWidth_charAt_range (s : jsstring) (i : nat) :
  0 <= calcWidth (charAt s i) <= 2.
Proof.
  unfold charAt. destruct (nth_error s i) as [c|].
  - rewrite calcWidth_single. apply char_width_range.
  - rewrite calcWidth_nil. lia.
Qed.

(** ** The walk of [offsetToColRow] *)

Section Walk.

Variable input : jsstring.
Variable maxCols : Z.

Lemma advance_row (chr : jsstring) (p : Position) :
  row p <= row (advance chr maxCols p) <= row p + 1.
Proof.
  unfold advance.
  destruct (str_eqb chr LF); [simpl; lia|].
  destruct (col p + calcWidth chr >? maxCols); simpl; lia.
Qed.

Lemma advance_col (i : nat) (p : Position) :
  0 <= maxCols -> 0 <= col p <= maxCols ->
  0 <= col (advance (charAt input i) maxCols p) <= maxCols.
Proof.
  intros HW Hp. unfold advance.
  destruct (str_eqb _ LF); [simpl; lia|].
  pose proof (calcWidth_charAt_range input i) as Hw.
  destruct (Z.gtb_spec (col p + calcWidth (charAt input i)) maxCols);
    simpl; lia.
Qed.

Lemma walk_add (n m i : nat) (p : Position) :
  walk (n + m) i input maxCols p
  = walk m (i + n) input maxCols (walk n i input maxCols p).
Proof.
  revert i p; induction n as [|n IH]; intros i p; simpl.
  - rewrite Nat.add_0_r. reflexivity.
  - rewrite IH. f_equal. lia.
Qed.

Lemma walk_succ (n : nat) (p : Position) :
  walk (S n) 0 input maxCols p
  = advance (charAt input n) maxCols (walk n 0 input maxCols p).
Proof.
  replace (S n) with (n + 1)%nat by lia.
  rewrite walk_add. reflexivity.
Qed.

Lemma walk_row (n i : nat) (p : Position) :
  row p <= row (walk n i input maxCols p).
Proof.
  revert i p; induction n as [|n IH]; intros i p; simpl; [lia|].
  specialize (IH (S i) (advance (charAt input i) maxCols p)).
  pose proof (advance_row (charAt input i) p). lia.
Qed.

Lemma walk_col (n i : nat) (p : Position) :
  0 <= maxCols -> 0 <= col p <= maxCols ->
  0 <= col (walk n i input maxCols p) <= maxCols.
Proof.
  intros HW. revert i p; induction n as [|n IH]; intros i p Hp; simpl.
  - exact Hp.
  - apply IH, advance_col; assumption.
Qed.

(** Past the end of the text [charAt] gives the empty string, of width
    0: a position within the width stays where it is. *)
Lemma walk_past_end (n i : nat) (p : Position) :
  (length input <= i)%nat -> col p <= maxCols ->
  walk n i input maxCols p = p.
Proof.
  revert i p; induction n as [|n IH]; intros i p Hi Hp; simpl;
    [reflexivity|].
  assert (Hc : charAt input i = []).
  { unfold charAt.
    destruct (nth_error input i) eqn:E; [|reflexivity].
    assert (nth_error input i <> None) as Hn by congruence.
    apply nth_error_Some in Hn. lia. }
  assert (Ha : advance (charAt input i) maxCols p = p).
  { rewrite Hc. unfold advance; simpl. rewrite Z.add_0_r.
    destruct (Z.gtb_spec (col p) maxCols); [lia|].
    destruct p; reflexivity. }
  rewrite Ha. apply IH; [lia | assumption].
Qed.

End Walk.

(** ** Cursor geometry *)

Lemma offsetToColRow_walk (input : jsstring) (offset maxCols : Z) :
  offsetToColRow input offset maxCols
  = walk (Z.to_nat (effective input offset)) 0 (removeANSI input) maxCols
         {| row := 0; col := 0 |}.
Proof. reflexivity. Qed.

(** One more unit of offset is one more turn of the loop. *)
Lemma offsetToColRow_next (input : jsstring) (offset maxCols : Z) :
  0 <= effective input offset ->
  offsetToColRow input (offset + 1) maxCols
  = advance (charAt (removeANSI input) (Z.to_nat (effective input offset)))
            maxCols (offsetToColRow input offset maxCols).
Proof.
  intros H. rewrite !offsetToColRow_walk.
  replace (effective input (offset + 1)) with (effective input offset + 1)
    by (unfold effective; lia).
  rewrite Z2Nat.inj_add by lia. simpl (Z.to_nat 1).
  rewrite Nat.add_1_r. apply walk_succ.
Qed.

Lemma offsetToColRow_col (input : jsstring) (offset maxCols : Z) :
  0 <= maxCols -> 0 <= col (offsetToColRow input offset maxCols) <= maxCols.
Proof.
  intros H. rewrite offsetToColRow_walk. apply walk_col; simpl; lia.
Qed.

(** C1, as the code has it.  For a width that is not negative the column
    is between 0 and [maxCols] after every character.  The character at
    the effective offset, when it is not a newline, first adds its width to
    the column; if the sum is above [maxCols] the column is reset to 0 and
    the row goes up by one, and the width of the character is dropped: the
    column after a character that crosses the boundary is 0, whatever its
    width.  Otherwise the row is kept and the column is the sum. *)
Theorem offsetToColRow_wrap_resets_column
        (input : jsstring) (offset maxCols : Z) :
  let chr := charAt (removeANSI input) (Z.to_nat (effective input offset)) in
  let p := offsetToColRow input offset maxCols in
  let p' := offsetToColRow input (offset + 1) maxCols in
  0 <= effective input offset ->
  (0 <= maxCols -> 0 <= col p <= maxCols /\ 0 <= col p' <= maxCols)
  /\ (chr <> LF -> col p + calcWidth chr > maxCols ->
      p' = {| row := row p + 1; col := 0 |})
  /\ (chr <> LF -> col p + calcWidth chr <= maxCols ->
      p' = {| row := row p; col := col p + calcWidth chr |})
  /\ (chr = LF -> p' = {| row := row p + 1; col := 0 |}).
Proof.
  intros chr p p' Heff. subst p'.
  rewrite (offsetToColRow_next _ _ _ Heff). fold chr. fold p.
  split; [|split; [|split]].
  - intros HW. split.
    + apply offsetToColRow_col; assumption.
    + apply advance_col; [assumption|].
      apply offsetToColRow_col; assumption.
  - intros Hn Hgt. unfold advance.
    destruct (str_eqb chr LF) eqn:E; [apply str_eqb_eq in E; contradiction|].
    destruct (Z.gtb_spec (col p + calcWidth chr) maxCols); [reflexivity|lia].
  - intros Hn Hle. unfold advance.
    destruct (str_eqb chr LF) eqn:E; [apply str_eqb_eq in E; contradiction|].
    destruct (Z.gtb_spec (col p + calcWidth chr) maxCols); [lia|reflexivity].
  - intros ->. reflexivity.
Qed.

Lemma offsetToColRow_wrap_resets_column_witness :
  0 <= effective [CJK; CJK] 1
  /\ offsetToColRow [CJK; CJK] 2 3 = {| row := 1; col := 0 |}.
Proof.
  assert (Heff : 0 <= effective [CJK; CJK] 1) by (vm_compute; discriminate).
  split; [exact Heff|].
  destruct (offsetToColRow_wrap_resets_column [CJK; CJK] 1 3 Heff)
    as (_ & Hwrap & _).
  apply Hwrap.
  - vm_compute; discriminate.
  - vm_compute; reflexivity.
Defined.

(** C1, as it is stated, fails: in a terminal of 3 columns the second of
    two wide characters crosses the boundary (the column is 2 before it, and
    2 + 2 > 3), and the column after it is 0, not 2. *)
Lemma offsetToColRow_wide_cross_column_not_2 :
  calcWidth [CJK] = 2
  /\ col (offsetToColRow [CJK; CJK] 1 3) + calcWidth [CJK] > 3
  /\ offsetToColRow [CJK; CJK] 2 3 = {| row := 1; col := 0 |}
  /\ col (offsetToColRow [CJK; CJK] 2 3) <> 2.
Proof.
  repeat apply conj; vm_compute; first [reflexivity | discriminate].
Qed.

(** C8.  [countLines] is the row of the end of the text plus one, and is
    at least 1 for every text and every width. *)
Theorem countLines_row_plus_one (input : jsstring) (maxCols : Z) :
  countLines input maxCols
  = row (offsetToColRow input (len input) maxCols) + 1
  /\ 1 <= countLines input maxCols
  /\ countLines [] maxCols = 1.
Proof.
  split; [reflexivity|]. split; [|reflexivity].
  unfold countLines. rewrite offsetToColRow_walk.
  pose proof (walk_row (removeANSI input) maxCols
                (Z.to_nat (effective input (len input))) 0
                {| row := 0; col := 0 |}) as H.
  simpl in H. lia.
Qed.

(** C10, as the code has it.  [offsetToColRow] is a total function of the
    text, the offset and the width.  When the offset less the length of the
    removed escapes is at most 0 the position is the origin.  When the
    width is not negative, an offset past the end of the text gives the
    position of the end of the text. *)
Theorem offsetToColRow_out_of_range (input : jsstring) (offset maxCols : Z) :
  (offset - (len input - len (removeANSI input)) <= 0 ->
   offsetToColRow input offset maxCols = {| row := 0; col := 0 |})
  /\ (0 <= maxCols -> len input < offset ->
      offsetToColRow input offset maxCols
      = offsetToColRow input (len input) maxCols).
Proof.
  split.
  - intros H. rewrite offsetToColRow_walk.
    replace (Z.to_nat (effective input offset)) with O
      by (unfold effective; lia).
    reflexivity.
  - intros HW Hlt. rewrite !offsetToColRow_walk.
    set (s := removeANSI input).
    assert (He : Z.to_nat (effective input (len input)) = length s).
    { unfold effective, len. fold s. lia. }
    assert (Ho : Z.to_nat (effective input offset)
                 = (length s + Z.to_nat (offset - len input))%nat).
    { unfold effective, len in *. fold s. lia. }
    rewrite He, Ho, walk_add. apply walk_past_end; [lia|].
    apply walk_col; simpl; lia.
Qed.

Lemma offsetToColRow_out_of_range_witness :
  offsetToColRow (js "ab") (-1) 80 = {| row := 0; col := 0 |}
  /\ offsetToColRow (js "ab") 7 80 = offsetToColRow (js "ab") 2 80.
Proof.
  split.
  - apply (proj1 (offsetToColRow_out_of_range (js "ab") (-1) 80)).
    vm_compute; discriminate.
  - apply (proj2 (offsetToColRow_out_of_range (js "ab") 7 80)).
    + vm_compute; discriminate.
    + vm_compute; reflexivity.
Defined.

(** C10, as it is stated, fails for a negative width: every turn of the
    loop past the end of the text finds the column 0 above the width and
    goes to the next row. *)
Lemma offsetToColRow_negative_width_not_clamped :
  len [] < 5
  /\ offsetToColRow [] 5 (-1) = {| row := 5; col := 0 |}
  /\ offsetToColRow [] (len []) (-1) = {| row := 0; col := 0 |}
  /\ offsetToColRow [] 5 (-1) <> offsetToColRow [] (len []) (-1).
Proof.
  repeat apply conj; vm_compute; first [reflexivity | discriminate].
Qed.

(** ** Prefixes *)

Lemma startsWith_firstn (s p : jsstring) :
  startsWith s p = true <-> firstn (length p) s = p.
Proof.
  revert s; induction p as [|x p IH]; intros s; simpl;
    [split; reflexivity|].
  destruct s as [|y s]; [split; discriminate|].
  rewrite andb_true_iff, Z.eqb_eq, IH.
  split; [intros [-> ->]; reflexivity | intros [= -> ->]; auto].
Qed.

Lemma startsWith_app (s p : jsstring) :
  startsWith s p = true <-> exists t, s = p ++ t.
Proof.
  rewrite startsWith_firstn. split.
  - intros H. exists (skipn (length p) s).
    rewrite <- H at 1. symmetry. apply firstn_skipn.
  - intros [t ->]. rewrite firstn_app, Nat.sub_diag, firstn_all. simpl.
    apply app_nil_r.
Qed.

Lemma startsWith_refl (s : jsstring) : startsWith s s = true.
Proof. apply startsWith_firstn, firstn_all. Qed.

Lemma startsWith_length (s p : jsstring) :
  startsWith s p = true -> (length p <= length s)%nat.
Proof.
  rewrite startsWith_app. intros [t ->]. rewrite length_app. lia.
Qed.

Lemma startsWith_trans (s p q : jsstring) :
  startsWith s p = true -> startsWith p q = true -> startsWith s q = true.
Proof.
  rewrite !startsWith_app. intros [t ->] [u ->].
  exists (u ++ t). symmetry. apply app_assoc.
Qed.

(** Two prefixes of one string: the shorter is a prefix of the longer. *)
Lemma startsWith_chain (s p q : jsstring) :
  startsWith s p = true -> startsWith s q = true ->
  (length q <= length p)%nat -> startsWith p q = true.
Proof.
  rewrite !startsWith_firstn. intros Hp Hq Hle.
  rewrite <- Hp, firstn_firstn, Nat.min_l by lia. exact Hq.
Qed.

Lemma startsWith_same_length (s p : jsstring) :
  startsWith s p = true -> (length s <= length p)%nat -> s = p.
Proof.
  rewrite startsWith_firstn. intros H Hle.
  rewrite firstn_all2 in H by lia. exact H.
Qed.

Lemma startsWith_false_trans (s p q : jsstring) :
  startsWith s q = false -> startsWith p q = true -> startsWith s p = false.
Proof.
  intros Hq Hpq. destruct (startsWith s p) eqn:E; [|reflexivity].
  rewrite (startsWith_trans _ _ _ E Hpq) in Hq. discriminate.
Qed.

(** ** The shared fragment *)

Lemma extend_firstn (fragment first : jsstring) :
  startsWith first fragment = true ->
  extend fragment first = firstn (length fragment + 1) first.
Proof.
  rewrite startsWith_app. intros [t ->]. unfold extend, slice.
  rewrite skipn_app, Nat.sub_diag, skipn_all. simpl.
  rewrite firstn_app, (firstn_all2 fragment) by lia.
  reflexivity.
Qed.

Lemma extend_length (fragment first : jsstring) :
  (length fragment < length first)%nat ->
  length (extend fragment first) = S (length fragment).
Proof.
  intros H. unfold extend, slice.
  rewrite length_app, length_firstn, length_skipn. lia.
Qed.

Lemma extend_startsWith (fragment first : jsstring) :
  startsWith (extend fragment first) fragment = true.
Proof. apply startsWith_app. eexists. reflexivity. Qed.

Lemma first_startsWith_extend (fragment first : jsstring) :
  startsWith first fragment = true ->
  startsWith first (extend fragment first) = true.
Proof.
  intros H. rewrite (extend_firstn _ _ H).
  apply startsWith_app. exists (skipn (length fragment + 1) first).
  symmetry. apply firstn_skipn.
Qed.

(** One unfolding of the recursion, as the source reads. *)
Lemma getSharedFragment_step (fragment first : jsstring)
      (rest : list jsstring) :
  getSharedFragment fragment (first :: rest)
  = if (length first <=? length fragment)%nat then Str fragment
    else match check_candidates fragment (extend fragment first)
                                (first :: rest) with
         | Some r => r
         | None => getSharedFragment (extend fragment first) (first :: rest)
         end.
Proof.
  rewrite getSharedFragment_equation_2.
  destruct (le_lt_dec (length first) (length fragment)) as [H|H].
  - pose proof (proj2 (Nat.leb_le _ _) H) as Hb. rewrite Hb. reflexivity.
  - pose proof (proj2 (Nat.leb_gt _ _) H) as Hb. rewrite Hb.
    unfold getSharedFragment_unfold_clause_2.
    destruct (check_candidates fragment (extend fragment first)
                               (first :: rest)).
    + reflexivity.
    + apply getSharedFragment_clause_2_clause_2_equation_2.
Qed.

(** What the [for] loop does when no candidate is wrong. *)
Lemma check_candidates_sound (oldFragment fragment : jsstring)
      (candidates : list jsstring) :
  (forall c, In c candidates -> startsWith c oldFragment = true) ->
  (check_candidates oldFragment fragment candidates = None
   /\ forall c, In c candidates -> startsWith c fragment = true)
  \/ (check_candidates oldFragment fragment candidates
      = Some (Str oldFragment)
      /\ exists c, In c candidates /\ startsWith c fragment = false).
Proof.
  induction candidates as [|c cs IH]; intros Hall; simpl.
  - left. split; [reflexivity | intros c []].
  - rewrite (Hall c (or_introl eq_refl)). simpl.
    destruct (startsWith c fragment) eqn:E; simpl.
    + destruct IH as [[-> H]|[-> (d & Hd & Hf)]].
      * intros d Hd. apply Hall. right. exact Hd.
      * left. split; [reflexivity|]. intros d [<-|Hd]; auto.
      * right. split; [reflexivity|]. exists d. split; [right|]; assumption.
    + right. split; [reflexivity|]. exists c. split; [left|]; auto.
Qed.

(** The loop returns [null] only for a wrong candidate, and it does return
    [null] for one unless a candidate before it stops the loop. *)
Lemma check_candidates_null (oldFragment fragment : jsstring)
      (candidates : list jsstring) :
  check_candidates oldFragment fragment candidates = Some Null ->
  exists c, In c candidates /\ startsWith c oldFragment = false.
Proof.
  induction candidates as [|c cs IH]; simpl; [discriminate|].
  destruct (startsWith c oldFragment) eqn:Eo; simpl.
  - destruct (startsWith c fragment); simpl; [|discriminate].
    intros H. destruct (IH H) as (d & Hd & Hf).
    exists d. split; [right|]; assumption.
  - intros _. exists c. split; [left|]; auto.
Qed.

Lemma check_candidates_wrong (oldFragment fragment : jsstring)
      (candidates : list jsstring) :
  (exists c, In c candidates /\ startsWith c oldFragment = false) ->
  (forall c, In c candidates -> startsWith c oldFragment = true ->
             startsWith c fragment = true) ->
  check_candidates oldFragment fragment candidates = Some Null.
Proof.
  induction candidates as [|c cs IH]; intros (d & Hd & Hf) Hnext; simpl.
  - destruct Hd.
  - destruct (startsWith c oldFragment) eqn:Eo; simpl; [|reflexivity].
    rewrite (Hnext c (or_introl eq_refl) Eo). simpl.
    apply IH.
    + destruct Hd as [<-|Hd]; [congruence|]. exists d. auto.
    + intros e He. apply Hnext. right. exact He.
Qed.

(** With no wrong candidate the recursion ends on the longest prefix that
    all the candidates share. *)
Lemma getSharedFragment_longest (first : jsstring) (rest : list jsstring)
      (n : nat) :
  forall fragment : jsstring,
    (length first - length fragment)%nat = n ->
    (forall c, In c (first :: rest) -> startsWith c fragment = true) ->
    exists p,
      getSharedFragment fragment (first :: rest) = Str p
      /\ startsWith p fragment = true
      /\ (forall c, In c (first :: rest) -> startsWith c p = true)
      /\ (forall q, (forall c, In c (first :: rest) ->
                               startsWith c q = true) ->
                    startsWith p q = true).
Proof.
  induction n as [|n IH]; intros fragment Hn Hall;
    rewrite getSharedFragment_step;
    pose proof (Hall first (or_introl eq_refl)) as Hfirst.
  - assert (Hle : (length first <= length fragment)%nat) by lia.
    rewrite (proj2 (Nat.leb_le _ _) Hle).
    pose proof (startsWith_same_length _ _ Hfirst Hle) as Heq.
    exists fragment. split; [reflexivity|].
    split; [apply startsWith_refl|]. split; [exact Hall|].
    intros q Hq. rewrite <- Heq. apply Hq. left. reflexivity.
  - assert (Hlt : (length fragment < length first)%nat) by lia.
    rewrite (proj2 (Nat.leb_gt _ _) Hlt).
    pose proof (extend_length _ _ Hlt) as Hlen.
    destruct (check_candidates_sound fragment (extend fragment first)
                (first :: rest) Hall) as [[-> Hnew]|[-> (c & Hc & Hf)]].
    + destruct (IH (extend fragment first)) as (p & Hp & Hpre & Hcom & Hmax).
      * lia.
      * exact Hnew.
      * exists p. split; [exact Hp|]. split; [|split; assumption].
        apply (startsWith_trans _ _ _ Hpre), extend_startsWith.
    + exists fragment. split; [reflexivity|].
      split; [apply startsWith_refl|]. split; [exact Hall|].
      intros q Hq.
      pose proof (Hq first (or_introl eq_refl)) as Hfq.
      destruct (le_lt_dec (length q) (length fragment)) as [Hle|Hgt].
      * apply (startsWith_chain first); assumption.
      * exfalso.
        assert (Hqn : startsWith q (extend fragment first) = true).
        { apply (startsWith_chain first);
            [assumption | apply first_startsWith_extend; assumption | lia]. }
        rewrite (startsWith_trans _ _ _ (Hq c Hc) Hqn) in Hf. discriminate.
Qed.

(** C3.  For a list of candidates that is not empty and whose members all
    start with the prefix, [getSharedFragment] returns a string: it extends
    the prefix, every candidate starts with it, and every string that all
    the candidates start with is a prefix of it; that is, it is the longest
    common prefix of the candidates.  The two examples of the specification
    are instances. *)
Theorem getSharedFragment_longest_common_prefix
        (prefix : jsstring) (candidates : list jsstring) :
  candidates <> [] ->
  (forall c, In c candidates -> startsWith c prefix = true) ->
  (exists p,
      getSharedFragment prefix candidates = Str p
      /\ startsWith p prefix = true
      /\ (forall c, In c candidates -> startsWith c p = true)
      /\ (forall q, (forall c, In c candidates -> startsWith c q = true) ->
                    startsWith p q = true /\ (length q <= length p)%nat))
  /\ getSharedFragment [] [js "git"; js "grep"] = Str (js "g")
  /\ getSharedFragment [] [js "git"; js "git"] = Str (js "git").
Proof.
  intros Hne Hall. split; [|split; reflexivity].
  destruct candidates as [|first rest]; [contradiction|].
  destruct (getSharedFragment_longest first rest _ prefix eq_refl Hall)
    as (p & Hp & Hpre & Hcom & Hmax).
  exists p. repeat (split; [assumption|]).
  intros q Hq. pose proof (Hmax q Hq) as H.
  split; [exact H | apply startsWith_length; exact H].
Qed.

Lemma getSharedFragment_longest_common_prefix_witness :
  exists p,
    getSharedFragment (js "g") [js "grep"; js "great"; js "green"] = Str p
    /\ p = js "gre".
Proof.
  destruct (getSharedFragment_longest_common_prefix
              (js "g") [js "grep"; js "great"; js "green"])
    as [(p & Hp & _) _].
  - discriminate.
  - intros c [<-|[<-|[<-|[]]]]; reflexivity.
  - exists p. split; [exact Hp|].
    assert (E : getSharedFragment (js "g") [js "grep"; js "great"; js "green"]
                = Str (js "gre")) by reflexivity.
    rewrite E in Hp. injection Hp as <-. reflexivity.
Defined.

Lemma wrong_candidate_dec (prefix : jsstring) (candidates : list jsstring) :
  (forall c, In c candidates -> startsWith c prefix = true)
  \/ (exists c, In c candidates /\ startsWith c prefix = false).
Proof.
  induction candidates as [|c cs [IH|(d & Hd & Hf)]].
  - left. intros c [].
  - destruct (startsWith c prefix) eqn:E.
    + left. intros d [<-|Hd]; auto.
    + right. exists c. split; [left|]; auto.
  - right. exists d. split; [right|]; assumption.
Qed.

(** The loop returns [null] at the first wrong candidate when the
    candidates before it all start with the extended fragment. *)
Lemma check_candidates_first_wrong (oldFragment fragment : jsstring)
      (before : list jsstring) (c : jsstring) (after : list jsstring) :
  startsWith c oldFragment = false ->
  (forall d, In d before -> startsWith d fragment = true) ->
  check_candidates oldFragment fragment (before ++ c :: after) = Some Null.
Proof.
  intros Hc. induction before as [|d before IH]; intros Hb; simpl.
  - rewrite Hc. reflexivity.
  - destruct (startsWith d oldFragment); simpl; [|reflexivity].
    rewrite (Hb d (or_introl eq_refl)). simpl.
    apply IH. intros e He. apply Hb. right. exact He.
Qed.

(** C6, as the code has it.  For a list of candidates that is not empty:
    [getSharedFragment] returns [null] only if some candidate does not
    start with the prefix; a prefix at least as long as the first candidate
    is returned as it is, wrong candidates or not; and for a prefix shorter
    than the first candidate, [null] is returned whenever some candidate
    that does not start with the prefix has before it, in the list, only
    candidates that start with the prefix extended by the next character of
    the first candidate: whatever comes after it, and in particular
    whenever the first candidate itself does not start with the prefix. *)
Theorem getSharedFragment_null
        (prefix : jsstring) (candidates : list jsstring) :
  candidates <> [] ->
  let first := hd [] candidates in
  (getSharedFragment prefix candidates = Null ->
   exists c, In c candidates /\ startsWith c prefix = false)
  /\ ((length first <= length prefix)%nat ->
      getSharedFragment prefix candidates = Str prefix)
  /\ ((length prefix < length first)%nat ->
      (exists before c after,
          candidates = before ++ c :: after
          /\ startsWith c prefix = false
          /\ forall d, In d before ->
                       startsWith d (extend prefix first) = true) ->
      getSharedFragment prefix candidates = Null)
  /\ ((length prefix < length first)%nat ->
      startsWith first prefix = false ->
      getSharedFragment prefix candidates = Null).
Proof.
  intros Hne first.
  destruct candidates as [|c0 rest]; [contradiction|]. simpl in first.
  subst first.
  assert (Hsplit : (length prefix < length c0)%nat ->
                   (exists before c after,
                       c0 :: rest = before ++ c :: after
                       /\ startsWith c prefix = false
                       /\ forall d, In d before ->
                                    startsWith d (extend prefix c0) = true) ->
                   getSharedFragment prefix (c0 :: rest) = Null).
  { intros Hlt (before & c & after & Heq & Hc & Hb).
    rewrite getSharedFragment_step.
    rewrite (proj2 (Nat.leb_gt _ _) Hlt).
    rewrite Heq, (check_candidates_first_wrong _ _ _ _ _ Hc Hb).
    reflexivity. }
  split; [|split; [|split]].
  - intros Hnull.
    destruct (wrong_candidate_dec prefix (c0 :: rest)) as [Hall|Hw];
      [|exact Hw].
    destruct (getSharedFragment_longest c0 rest _ prefix eq_refl Hall)
      as (p & Hp & _).
    rewrite Hp in Hnull. discriminate.
  - intros Hle. rewrite getSharedFragment_step.
    rewrite (proj2 (Nat.leb_le _ _) Hle). reflexivity.
  - exact Hsplit.
  - intros Hlt Hc. apply (Hsplit Hlt).
    exists [], c0, rest. split; [reflexivity|]. split; [exact Hc|].
    intros d [].
Qed.

Lemma getSharedFragment_null_witness :
  getSharedFragment (js "g") [js "git"; js "x"; js "go"] = Null
  /\ getSharedFragment (js "x") [js "git"; js "xa"] = Null
  /\ getSharedFragment (js "git") [js "git"; js "x"] = Str (js "git").
Proof.
  assert (Hne : [js "git"; js "x"; js "go"] <> []) by discriminate.
  assert (Hne' : [js "git"; js "xa"] <> []) by discriminate.
  assert (Hne'' : [js "git"; js "x"] <> []) by discriminate.
  split; [|split].
  - apply (proj1 (proj2 (proj2 (getSharedFragment_null
                                  (js "g") [js "git"; js "x"; js "go"]
                                  Hne)))).
    + vm_compute. lia.
    + exists [js "git"], (js "x"), [js "go"].
      split; [reflexivity|]. split; [reflexivity|].
      intros d [<-|[]]. reflexivity.
  - apply (proj2 (proj2 (proj2 (getSharedFragment_null
                                  (js "x") [js "git"; js "xa"] Hne')))).
    + vm_compute. lia.
    + reflexivity.
  - apply (proj1 (proj2 (getSharedFragment_null
                           (js "git") [js "git"; js "x"] Hne''))).
    vm_compute. lia.
Defined.

(** C6, as it is stated, fails: the candidate does not start with the
    prefix, the prefix is as long as the first candidate, and the prefix
    comes back, not [null]. *)
Lemma getSharedFragment_long_prefix_not_null :
  In (js "git") [js "git"]
  /\ startsWith (js "git") (js "xyz") = false
  /\ getSharedFragment (js "xyz") [js "git"] = Str (js "xyz")
  /\ getSharedFragment (js "xyz") [js "git"] <> Null.
Proof.
  split; [left; reflexivity|].
  repeat apply conj; vm_compute; first [reflexivity | discriminate].
Qed.

(** The loop also leaves as soon as a candidate diverges from the first,
    before it has looked at the candidates behind it. *)
Example getSharedFragment_wrong_candidate_behind :
  getSharedFragment (js "g") [js "git"; js "go"; js "x"] = Str (js "g").
Proof. reflexivity. Qed.

(** ** Collecting the candidates *)

Section Collect.

Variable object : Type.
Variable parse : jsstring -> list (@token object).
Variable value : Type.
Variable error : Type.

Lemma collect_fold (index : Z) (tokens : list (@token object))
      (callbacks : list (callback object value error)) :
  forall (candidates : list jsstring) (console : list error),
    fold_left (collect_step index tokens) callbacks (candidates, console)
    = (candidates ++ flat_map (contribution index tokens) callbacks,
       console ++ flat_map (logged index tokens) callbacks).
Proof.
  induction callbacks as [|cb cbs IH]; intros candidates console; simpl.
  - rewrite !app_nil_r. reflexivity.
  - unfold contribution at 1, logged at 1.
    destruct (fn cb index tokens (args cb)) as [found|e]; rewrite IH;
      simpl; rewrite <- ?app_assoc; reflexivity.
Qed.

(** C4.  Every callback is called with the index of the active token and
    all the tokens (and its own arguments); what the callbacks return is
    put together in the order of the callbacks, a callback that throws
    adding nothing but a line on the console; and of these candidates the
    ones that start with the text of the active token are returned, in
    the same order. *)
Theorem collectAutocompleteCandidates_collects
        (callbacks : list (callback object value error)) (input : jsstring) :
  let tokens := parse input in
  let index := active_index parse input in
  collectAutocompleteCandidates parse callbacks input
  = (filter (fun txt => startsWith txt (active_text parse input))
            (flat_map (contribution index tokens) callbacks),
     flat_map (logged index tokens) callbacks)
  /\ (forall txt,
         In txt (fst (collectAutocompleteCandidates parse callbacks input))
         <-> (exists cb found,
                 In cb callbacks
                 /\ fn cb index tokens (args cb) = Return found
                 /\ In txt found)
             /\ startsWith txt (active_text parse input) = true)
  /\ (parse (js "g") = [TString (js "g")] ->
      fst (collectAutocompleteCandidates
             parse [@git_grep_go object value error] (js "g"))
      = [js "git"; js "grep"; js "go"])
  /\ (parse (js "gi") = [TString (js "gi")] ->
      fst (collectAutocompleteCandidates
             parse [@git_grep_go object value error] (js "gi"))
      = [js "git"])
  /\ (parse (js "x") = [TString (js "x")] ->
      fst (collectAutocompleteCandidates
             parse [@git_grep_go object value error] (js "x"))
      = []).
Proof.
  intros tokens index.
  assert (Heq : forall (cbs : list (callback object value error)) inp,
             collectAutocompleteCandidates parse cbs inp
             = (filter (fun txt => startsWith txt (active_text parse inp))
                       (flat_map (contribution (active_index parse inp)
                                               (parse inp)) cbs),
                flat_map (logged (active_index parse inp) (parse inp)) cbs)).
  { intros cbs inp.
    unfold collectAutocompleteCandidates, active_index, active_text,
      pop_or_empty.
    destruct (str_eqb (trim inp) []);
      [|destruct (hasTailingWhitespace inp)];
      rewrite collect_fold; simpl; repeat f_equal; lia. }
  split; [apply Heq|]. split.
  - intros txt. rewrite Heq. simpl. rewrite filter_In, in_flat_map.
    fold tokens. fold index.
    split.
    + intros [(cb & Hcb & Hin) Hs]. split; [|exact Hs].
      unfold contribution in Hin.
      destruct (fn cb index tokens (args cb)) as [found|e] eqn:E;
        [|destruct Hin].
      exists cb, found. auto.
    + intros [(cb & found & Hcb & Hfn & Hin) Hs]. split; [|exact Hs].
      exists cb. split; [exact Hcb|].
      unfold contribution. rewrite Hfn. exact Hin.
  - repeat split; intros Hp; rewrite Heq; unfold active_text;
      rewrite Hp; reflexivity.
Qed.

End Collect.

Lemma collectAutocompleteCandidates_collects_witness :
  fst (collectAutocompleteCandidates words_tokenizer
         [@git_grep_go Empty_set unit unit] (js "gi"))
  = [js "git"].
Proof.
  apply (collectAutocompleteCandidates_collects
           Empty_set words_tokenizer unit unit [] []).
  reflexivity.
Defined.

(** ** Scanning with a regular expression *)

(** A match hands to its continuation a text that is no longer than the
    text it started on. *)
Lemma rmatch_inv {A : Type} (r : regex) :
  forall (s : jsstring) (k : jsstring -> option A) (v : A),
    rmatch r s k = Some v ->
    exists t, (length t <= length s)%nat /\ k t = Some v.
Proof.
  induction r as [c|p|r1 IH1 r2 IH2|r1 IH1 r2 IH2|r1 IH1
                  |lo hi r1 IH1|p|]; intros s k v; cbn [rmatch].
  - destruct s as [|x t]; [discriminate|].
    destruct (x =? c); [|discriminate].
    intros H. exists t. simpl. split; [lia | exact H].
  - destruct s as [|x t]; [discriminate|].
    destruct (p x); [|discriminate].
    intros H. exists t. simpl. split; [lia | exact H].
  - intros H. apply IH1 in H. destruct H as (t & Ht & H).
    apply IH2 in H. destruct H as (u & Hu & H).
    exists u. split; [lia | exact H].
  - destruct (rmatch r1 s k) eqn:E.
    + intros [= <-]. apply IH1. exact E.
    + apply IH2.
  - destruct (rmatch r1 s k) eqn:E.
    + intros [= <-]. apply IH1. exact E.
    + intros H. exists s. split; [lia | exact H].
  - revert lo s v. induction hi as [|hi IHhi]; intros lo s v.
    + destruct lo; [|discriminate].
      intros H. exists s. split; [lia | exact H].
    + match goal with
      | |- context [rmatch r1 s ?k'] => destruct (rmatch r1 s k') eqn:E
      end.
      * intros [= <-]. apply IH1 in E. destruct E as (t & Ht & E).
        apply IHhi in E. destruct E as (u & Hu & E).
        exists u. split; [lia | exact E].
      * destruct lo; [|discriminate].
        intros H. exists s. split; [lia | exact H].
  - revert v. induction s as [|x t IHt]; intros v; [discriminate|].
    destruct (p x); [|discriminate].
    match goal with
    | |- context [match ?e with Some _ => _ | None => _ end] =>
        destruct e eqn:E
    end.
    + intros [= <-]. destruct (IHt _ eq_refl) as (u & Hu & H).
      exists u. simpl. split; [lia | exact H].
    + intros H. exists t. simpl. split; [lia | exact H].
  - destruct s as [|x t].
    + intros H. exists []. split; [lia | exact H].
    + destruct (is_line_terminator x); [|discriminate].
      intros H. exists (x :: t). split; [lia | exact H].
Qed.

Lemma match_at_bound (r : regex) (s : jsstring) (n : nat) :
  match_at r s = Some n -> (n <= length s)%nat.
Proof.
  unfold match_at. intros H. apply rmatch_inv in H.
  destruct H as (t & Ht & [= <-]). lia.
Qed.

Lemma match_at_lit (c x : Z) (t : jsstring) :
  match_at (Lit c) (x :: t) = if x =? c then Some 1%nat else None.
Proof.
  unfold match_at. cbn [rmatch]. destruct (x =? c); [|reflexivity].
  f_equal. change (length (x :: t)) with (S (length t)). lia.
Qed.

Lemma replace_all_cons (r : regex) (c : Z) (t : jsstring) :
  replace_all r (c :: t)
  = match match_at r (c :: t) with
    | Some (S n) => replace_all r (skipn n t)
    | _ => c :: replace_all r t
    end.
Proof.
  simp replace_all.
  destruct (match_at r (c :: t)) as [[|n]|]; simp replace_all; reflexivity.
Qed.

Lemma match_global_cons (r : regex) (c : Z) (t : jsstring) :
  match_global r (c :: t)
  = match match_at r (c :: t) with
    | Some (S n) => (c :: firstn n t) :: match_global r (skipn n t)
    | _ => match_global r t
    end.
Proof.
  simp match_global.
  destruct (match_at r (c :: t)) as [[|n]|]; simp match_global; reflexivity.
Qed.

Lemma split_captured_cons (r : regex) (cur : jsstring) (c : Z)
      (t : jsstring) :
  split_captured r cur (c :: t)
  = match match_at r (c :: t) with
    | Some (S n) =>
        rev cur :: (c :: firstn n t) :: split_captured r [] (skipn n t)
    | _ => split_captured r (c :: cur) t
    end.
Proof.
  simp split_captured.
  destruct (match_at r (c :: t)) as [[|n]|]; simp split_captured;
    reflexivity.
Qed.

Lemma exec_loop_cons (r : regex) (pos : Z) (c : Z) (t : jsstring) :
  exec_loop r pos (c :: t)
  = match match_at r (c :: t) with
    | Some (S n) =>
        (pos, Z.of_nat (S n))
          :: exec_loop r (pos + Z.of_nat (S n)) (skipn n t)
    | _ => exec_loop r (pos + 1) t
    end.
Proof.
  simp exec_loop.
  destruct (match_at r (c :: t)) as [[|n]|]; simp exec_loop; reflexivity.
Qed.

(** The matches of a one-character pattern are the occurrences of the
    character. *)
Lemma match_global_lit (c : Z) (s : jsstring) :
  length (match_global (Lit c) s) = count_occ Z.eq_dec s c.
Proof.
  induction s as [|x t IH]; [reflexivity|].
  rewrite match_global_cons, match_at_lit. simpl count_occ.
  destruct (Z.eqb_spec x c) as [->|Hne].
  - destruct (Z.eq_dec c c) as [_|]; [|contradiction].
    simpl. rewrite IH. reflexivity.
  - destruct (Z.eq_dec x c) as [|_]; [contradiction|]. exact IH.
Qed.

(** [split] always returns an array with a last element: a suffix of the
    text, which is all of the text or what comes after a separator. *)
Lemma split_captured_last (r : regex) (n : nat) :
  forall (s cur : jsstring),
    (length s <= n)%nat ->
    exists init seg,
      split_captured r cur s = init ++ [seg]
      /\ (seg = rev cur ++ s
          \/ exists pre op k,
              rev cur ++ s = pre ++ op ++ seg
              /\ match_at r (op ++ seg) = Some (S k)
              /\ length op = S k).
Proof.
  induction n as [|n IH]; intros s cur Hlen.
  - destruct s; [|simpl in Hlen; lia].
    exists [], (rev cur). simp split_captured. split; [reflexivity|].
    left. symmetry. apply app_nil_r.
  - destruct s as [|c t].
    { exists [], (rev cur). simp split_captured. split; [reflexivity|].
      left. symmetry. apply app_nil_r. }
    simpl in Hlen. rewrite split_captured_cons.
    assert (Hkeep : exists init seg,
               split_captured r (c :: cur) t = init ++ [seg]
               /\ (seg = rev cur ++ c :: t
                   \/ exists pre op k,
                       rev cur ++ c :: t = pre ++ op ++ seg
                       /\ match_at r (op ++ seg) = Some (S k)
                       /\ length op = S k)).
    { destruct (IH t (c :: cur)) as (init & seg & Hs & Hseg); [lia|].
      exists init, seg. split; [exact Hs|].
      simpl rev in Hseg. rewrite <- app_assoc in Hseg. exact Hseg. }
    destruct (match_at r (c :: t)) as [[|k]|] eqn:E;
      [exact Hkeep | | exact Hkeep].
    pose proof (match_at_bound _ _ _ E) as Hk. simpl in Hk.
    destruct (IH (skipn k t) []) as (init & seg & Hs & Hseg).
    { rewrite length_skipn. lia. }
    exists (rev cur :: (c :: firstn k t) :: init), seg.
    split; [rewrite Hs; reflexivity|]. right.
    destruct Hseg as [->|(pre & op & k' & Hcat & Hm & Hop)].
    + exists (rev cur), (c :: firstn k t), k. simpl.
      rewrite firstn_skipn, E. repeat split.
      rewrite length_firstn. lia.
    + exists (rev cur ++ (c :: firstn k t) ++ pre), op, k'.
      split; [|split; assumption].
      simpl in Hcat. rewrite <- !app_assoc, <- Hcat. simpl.
      rewrite firstn_skipn. reflexivity.
Qed.

Lemma last_snoc {A : Type} (l : list A) (x d : A) : last (l ++ [x]) d = x.
Proof. apply last_last. Qed.

(** ** Incomplete input *)

(** A match of the operators is one of the three operators. *)
Lemma match_at_operator (s : jsstring) (n : nat) :
  match_at operator_rx s = Some n ->
  In (firstn n s) [js "||"; js "|"; js "&&"].
Proof.
  unfold match_at, operator_rx. cbn [rmatch].
  destruct s as [|x s]; [discriminate|].
  assert (L1 : forall t : jsstring, (length (x :: t) - length t)%nat = 1%nat)
    by (intros t; change (length (x :: t)) with (S (length t)); lia).
  assert (L2 : forall (y : Z) (t : jsstring),
             (length (x :: y :: t) - length t)%nat = 2%nat)
    by (intros y t; change (length (x :: y :: t)) with (S (S (length t)));
        lia).
  destruct (Z.eqb_spec x 124) as [->|Hx].
  - destruct s as [|y s].
    + rewrite L1. intros [= <-]. simpl. auto.
    + destruct (Z.eqb_spec y 124) as [->|Hy].
      * rewrite L2. intros [= <-]. simpl. auto.
      * rewrite L1. intros [= <-]. simpl. auto.
  - destruct (Z.eqb_spec x 38) as [->|Hx'].
    + destruct s as [|y s]; [discriminate|].
      destruct (Z.eqb_spec y 38) as [->|Hy]; [|discriminate].
      rewrite L2. intros [= <-]. simpl. auto.
    + discriminate.
Qed.

Lemma match_at_operator_positive (s : jsstring) :
  match_at operator_rx s <> Some O.
Proof.
  intros H. apply match_at_operator in H. simpl in H.
  destruct H as [H|[H|[H|[]]]]; discriminate.
Qed.

Lemma odd_mod2 (n : nat) :
  negb (n mod 2 =? 0)%nat = Nat.odd n.
Proof.
  rewrite <- Nat.negb_even. f_equal.
  destruct (Nat.even n) eqn:E.
  - apply Nat.even_spec in E. destruct E as [k ->].
    apply Nat.eqb_eq. rewrite Nat.mul_comm. apply Nat.Div0.mod_mul.
  - apply Nat.eqb_neq. intros H.
    apply Nat.Lcm0.mod_divide in H. destruct H as [k ->].
    rewrite Nat.mul_comm, Nat.even_mul in E. discriminate.
Qed.

(** C2.  An input that trims to the empty string is not incomplete.  Any
    other input is incomplete exactly when the number of its single quotes
    is odd, or the number of its double quotes is odd, or the last of the
    segments that the operators split it into trims to the empty string, or
    it ends with a backslash and not with two.  In the third case the input
    ends with an operator followed by white space only.  The four examples of the
    specification are instances, and so is an input that ends with one
    backslash. *)
Theorem isIncompleteInput_cases (input : jsstring) :
  let trailing := last (split_captured operator_rx [] input) [] in
  (trim input = [] -> isIncompleteInput input = false)
  /\ (trim input <> [] ->
      (isIncompleteInput input = true <->
       Nat.odd (count_occ Z.eq_dec input 39) = true
       \/ Nat.odd (count_occ Z.eq_dec input 34) = true
       \/ trim trailing = []
       \/ (endsWith input [BACKSLASH] = true
           /\ endsWith input [BACKSLASH; BACKSLASH] = false)))
  /\ (trim input <> [] -> trim trailing = [] ->
      exists before op,
        input = before ++ op ++ trailing
        /\ In op [js "||"; js "|"; js "&&"])
  /\ isIncompleteInput (js "echo 'hello") = true
  /\ isIncompleteInput (js "echo hello") = false
  /\ isIncompleteInput (js "echo a &&") = true
  /\ isIncompleteInput (js "echo a \\") = false
  /\ isIncompleteInput (js "echo a \") = true.
Proof.
  intros trailing.
  split; [|split; [|split; [|repeat split]]].
  - intros H. unfold isIncompleteInput. rewrite H. reflexivity.
  - intros H. unfold isIncompleteInput. fold trailing.
    destruct (str_eqb (trim input) []) eqn:E;
      [apply str_eqb_eq in E; contradiction|].
    unfold single_quote_rx, double_quote_rx.
    rewrite !odd_mod2, !match_global_lit.
    destruct (Nat.odd (count_occ Z.eq_dec input 39)); [tauto|].
    destruct (Nat.odd (count_occ Z.eq_dec input 34)); [tauto|].
    destruct (str_eqb (trim trailing) []) eqn:Et.
    + apply str_eqb_eq in Et. tauto.
    + assert (trim trailing <> [])
        by (intros Heq; apply str_eqb_eq in Heq; congruence).
      destruct (endsWith input [BACKSLASH]),
               (endsWith input [BACKSLASH; BACKSLASH]); simpl;
        intuition congruence.
  - intros Hne Ht.
    destruct (split_captured_last operator_rx (length input) input [] (le_n _))
      as (init & seg & Hs & Hseg).
    assert (Hseg' : trailing = seg)
      by (unfold trailing; rewrite Hs; apply last_snoc).
    rewrite Hseg'. rewrite Hseg' in Ht.
    destruct Hseg as [Hall|(pre & op & k & Hcat & Hm & Hop)].
    + simpl in Hall. subst seg. contradiction.
    + simpl in Hcat. exists pre, op. split; [exact Hcat|].
      apply match_at_operator in Hm.
      rewrite <- Hop, firstn_app, Nat.sub_diag, firstn_all in Hm.
      simpl in Hm. rewrite app_nil_r in Hm. exact Hm.
Qed.

Lemma isIncompleteInput_cases_witness :
  isIncompleteInput (js "   ") = false
  /\ (exists before op,
         js "ls | " = before ++ op ++ js " "
         /\ In op [js "||"; js "|"; js "&&"]).
Proof.
  split.
  - apply (proj1 (isIncompleteInput_cases (js "   "))). reflexivity.
  - apply (proj1 (proj2 (proj2 (isIncompleteInput_cases (js "ls | "))))).
    + vm_compute. discriminate.
    + reflexivity.
Defined.

(** ** Word boundaries *)

Lemma run_le (p : Z -> bool) (s : jsstring) : (run p s <= length s)%nat.
Proof.
  induction s as [|c t IH]; simpl; [lia|]. destruct (p c); simpl; lia.
Qed.

Lemma run_skipn (p : Z -> bool) (s : jsstring) :
  run p (skipn (run p s) s) = O.
Proof.
  induction s as [|c t IH]; simpl; [reflexivity|].
  destruct (p c) eqn:E; simpl; [exact IH | rewrite E; reflexivity].
Qed.

(** [[...]+] is greedy: it takes the whole run. *)
Lemma match_at_class_plus (p : Z -> bool) (s : jsstring) :
  match_at (ClassPlus p) s
  = match run p s with
    | O => None
    | S n => Some (S n)
    end.
Proof.
  assert (H : forall (L : nat) (s : jsstring),
             (fix plus (s0 : jsstring) : option nat :=
                match s0 with
                | [] => None
                | x :: t =>
                    if p x
                    then match plus t with
                         | Some v => Some v
                         | None => Some (L - length t)%nat
                         end
                    else None
                end) s
             = match run p s with
               | O => None
               | S n => Some (L - (length s - S n))%nat
               end).
  { clear s. intros L. induction s as [|x t IH]; [reflexivity|].
    cbn [run]. destruct (p x); [|reflexivity].
    rewrite IH. pose proof (run_le p t).
    destruct (run p t) as [|m]; f_equal;
      change (length (x :: t)) with (S (length t)); f_equal; lia. }
  unfold match_at. cbn [rmatch]. rewrite H.
  pose proof (run_le p s).
  destruct (run p s) as [|n]; [reflexivity|]. f_equal. lia.
Qed.

(** Inside a run nothing starts and nothing ends. *)
Lemma word_starts_run (t : jsstring) :
  forall pos : Z,
    word_starts true pos t
    = word_starts true (pos + Z.of_nat (run is_word t))
                  (skipn (run is_word t) t).
Proof.
  induction t as [|c t IH]; intros pos; simpl.
  - reflexivity.
  - destruct (is_word c) eqn:E.
    + simpl. rewrite IH. f_equal. lia.
    + simpl. rewrite E. simpl. f_equal; lia.
Qed.

Lemma word_ends_run (t : jsstring) :
  forall pos : Z,
    word_ends true pos t
    = word_ends true (pos + Z.of_nat (run is_word t))
                (skipn (run is_word t) t).
Proof.
  induction t as [|c t IH]; intros pos; simpl.
  - f_equal. lia.
  - destruct (is_word c) eqn:E.
    + simpl. rewrite IH. f_equal. lia.
    + simpl. rewrite E. simpl. do 2 f_equal; lia.
Qed.

Lemma word_starts_no_run (s : jsstring) (pos : Z) :
  run is_word s = O ->
  word_starts true pos s = word_starts false pos s.
Proof.
  destruct s as [|c t]; simpl; [reflexivity|].
  destruct (is_word c); [discriminate | reflexivity].
Qed.

Lemma word_ends_no_run (s : jsstring) (pos : Z) :
  run is_word s = O ->
  word_ends true pos s = pos :: word_ends false pos s.
Proof.
  destruct s as [|c t]; simpl; [reflexivity|].
  destruct (is_word c); [discriminate | reflexivity].
Qed.

Lemma match_at_word_rx (s : jsstring) :
  match_at word_rx s
  = match run is_word s with
    | O => None
    | S n => Some (S n)
    end.
Proof. apply match_at_class_plus. Qed.

(** The loop over the matches of [/\w+/g] finds the runs. *)
Lemma exec_loop_word_rx (n : nat) :
  forall (s : jsstring) (pos : Z),
    (length s <= n)%nat ->
    map fst (exec_loop word_rx pos s) = word_starts false pos s
    /\ map (fun m : Z * Z => fst m + snd m) (exec_loop word_rx pos s)
       = word_ends false pos s.
Proof.
  induction n as [|n IH]; intros s pos Hlen.
  - destruct s; [|simpl in Hlen; lia].
    simp exec_loop. split; reflexivity.
  - destruct s as [|c t]; [simp exec_loop; split; reflexivity|].
    simpl in Hlen. rewrite exec_loop_cons.
    rewrite match_at_word_rx.
    cbn [run word_starts word_ends].
    destruct (is_word c) eqn:E.
    + pose proof (run_le is_word t) as Hrun.
      destruct (IH (skipn (run is_word t) t)
                   (pos + Z.of_nat (S (run is_word t)))) as [Hs He].
      { rewrite length_skipn. lia. }
      cbn [map fst snd]. rewrite Hs, He. simpl andb. cbn [app].
      rewrite word_starts_run, word_ends_run.
      rewrite (word_starts_no_run _ _ (run_skipn is_word t)).
      rewrite (word_ends_no_run _ _ (run_skipn is_word t)).
      replace (pos + 1 + Z.of_nat (run is_word t))
        with (pos + Z.of_nat (S (run is_word t))) by lia.
      split; reflexivity.
    + destruct (IH t (pos + 1)) as [Hs He]; [lia|].
      rewrite Hs, He. split; reflexivity.
Qed.

Lemma wordBoundaries_left (input : jsstring) :
  wordBoundaries input true = word_starts false 0 input.
Proof.
  unfold wordBoundaries.
  apply (proj1 (exec_loop_word_rx (length input) input 0 (le_n _))).
Qed.

Lemma wordBoundaries_right (input : jsstring) :
  wordBoundaries input false = word_ends false 0 input.
Proof.
  unfold wordBoundaries.
  apply (proj2 (exec_loop_word_rx (length input) input 0 (le_n _))).
Qed.

Lemma len_app (s t : jsstring) : len (s ++ t) = len s + len t.
Proof. unfold len. rewrite length_app. lia. Qed.

Lemma word_at_range (input : jsstring) (i : Z) :
  word_at input i = true -> 0 <= i < len input.
Proof.
  unfold word_at, len. destruct (Z.leb_spec 0 i); simpl; [|discriminate].
  destruct (nth_error input (Z.to_nat i)) eqn:E; [|discriminate].
  intros _. assert (nth_error input (Z.to_nat i) <> None) as Hn by congruence.
  apply nth_error_Some in Hn. lia.
Qed.

Lemma word_at_middle (pre : jsstring) (c : Z) (t : jsstring) :
  word_at (pre ++ c :: t) (len pre) = is_word c.
Proof.
  unfold word_at, len. rewrite Nat2Z.id.
  rewrite nth_error_app2, Nat.sub_diag by lia. simpl.
  destruct (Z.leb_spec 0 (Z.of_nat (length pre))); [reflexivity | lia].
Qed.

Section Boundaries.

Variable input : jsstring.

Lemma word_starts_index (s : jsstring) :
  forall pre : jsstring,
    input = pre ++ s ->
    forall x : Z,
      In x (word_starts (word_at input (len pre - 1)) (len pre) s)
      <-> len pre <= x /\ is_word_start input x = true.
Proof.
  induction s as [|c t IH]; intros pre Hin x.
  - simpl. split; [intros []|]. intros [Hle Hst].
    unfold is_word_start in Hst. apply andb_true_iff in Hst.
    destruct Hst as [Hw _]. apply word_at_range in Hw.
    rewrite Hin, app_nil_r in Hw. lia.
  - assert (Hc : word_at input (len pre) = is_word c)
      by (rewrite Hin; apply word_at_middle).
    specialize (IH (pre ++ [c])). rewrite <- app_assoc in IH.
    specialize (IH Hin x). rewrite len_app in IH.
    change (len [c]) with 1 in IH.
    replace (len pre + 1 - 1) with (len pre) in IH by lia.
    rewrite Hc in IH.
    cbn [word_starts]. rewrite in_app_iff, IH.
    assert (Hst : is_word_start input (len pre)
                  = is_word c && negb (word_at input (len pre - 1)))
      by (unfold is_word_start; rewrite Hc; reflexivity).
    rewrite <- Hst. split.
    + intros [H|[Hle H]]; [|split; [lia | exact H]].
      destruct (is_word_start input (len pre)) eqn:E; [|destruct H].
      destruct H as [<-|[]]. split; [lia | exact E].
    + intros [Hle H]. destruct (Z.eq_dec x (len pre)) as [->|Hne].
      * left. rewrite H. left. reflexivity.
      * right. split; [lia | exact H].
Qed.

Lemma word_ends_index (s : jsstring) :
  forall pre : jsstring,
    input = pre ++ s ->
    forall x : Z,
      In x (word_ends (word_at input (len pre - 1)) (len pre) s)
      <-> len pre <= x /\ is_word_end input x = true.
Proof.
  induction s as [|c t IH]; intros pre Hin x.
  - rewrite app_nil_r in Hin. cbn [word_ends]. unfold is_word_end.
    assert (Hout : forall y, len pre <= y -> word_at input y = false).
    { intros y Hy. destruct (word_at input y) eqn:E; [|reflexivity].
      apply word_at_range in E. rewrite Hin in E. lia. }
    split.
    + intros H. destruct (word_at input (len pre - 1)) eqn:E;
        [|destruct H].
      destruct H as [<-|[]]. split; [lia|].
      rewrite E, Hout by lia. reflexivity.
    + intros [Hle H]. apply andb_true_iff in H. destruct H as [Hw _].
      pose proof (word_at_range _ _ Hw) as Hr. rewrite Hin in Hr.
      assert (x = len pre) as -> by lia.
      rewrite Hw. left. reflexivity.
  - assert (Hc : word_at input (len pre) = is_word c)
      by (rewrite Hin; apply word_at_middle).
    specialize (IH (pre ++ [c])). rewrite <- app_assoc in IH.
    specialize (IH Hin x). rewrite len_app in IH.
    change (len [c]) with 1 in IH.
    replace (len pre + 1 - 1) with (len pre) in IH by lia.
    rewrite Hc in IH.
    cbn [word_ends]. rewrite in_app_iff, IH.
    assert (Hst : is_word_end input (len pre)
                  = word_at input (len pre - 1) && negb (is_word c))
      by (unfold is_word_end; rewrite Hc; reflexivity).
    rewrite <- Hst. split.
    + intros [H|[Hle H]]; [|split; [lia | exact H]].
      destruct (is_word_end input (len pre)) eqn:E; [|destruct H].
      destruct H as [<-|[]]. split; [lia | exact E].
    + intros [Hle H]. destruct (Z.eq_dec x (len pre)) as [->|Hne].
      * left. rewrite H. left. reflexivity.
      * right. split; [lia | exact H].
Qed.

(** The two lists of [wordBoundaries] hold the starts and the ends of the
    runs of word characters. *)
Lemma wordBoundaries_left_In (x : Z) :
  In x (wordBoundaries input true) <-> is_word_start input x = true.
Proof.
  rewrite wordBoundaries_left.
  pose proof (word_starts_index input [] eq_refl x) as H.
  change (word_at input (len [] - 1)) with (word_at input (-1)) in H.
  change (len []) with 0 in H.
  replace (word_at input (-1)) with false in H by reflexivity.
  rewrite H. split; [tauto|]. intros Hs. split; [|exact Hs].
  unfold is_word_start in Hs. apply andb_true_iff in Hs.
  destruct Hs as [Hw _]. apply word_at_range in Hw. lia.
Qed.

Lemma wordBoundaries_right_In (x : Z) :
  In x (wordBoundaries input false) <-> is_word_end input x = true.
Proof.
  rewrite wordBoundaries_right.
  pose proof (word_ends_index input [] eq_refl x) as H.
  change (word_at input (len [] - 1)) with (word_at input (-1)) in H.
  change (len []) with 0 in H.
  replace (word_at input (-1)) with false in H by reflexivity.
  rewrite H. split; [tauto|]. intros Hs. split; [|exact Hs].
  unfold is_word_end in Hs. apply andb_true_iff in Hs.
  destruct Hs as [Hw _]. apply word_at_range in Hw. lia.
Qed.

End Boundaries.

Lemma word_starts_sorted (s : jsstring) :
  forall (prev : bool) (pos : Z),
    StronglySorted Z.lt (word_starts prev pos s)
    /\ Forall (fun x => pos <= x) (word_starts prev pos s).
Proof.
  induction s as [|c t IH]; intros prev pos; simpl.
  - split; constructor.
  - destruct (IH (is_word c) (pos + 1)) as [Hs Hf].
    assert (Hf' : Forall (fun x => pos < x)
                         (word_starts (is_word c) (pos + 1) t))
      by (eapply Forall_impl; [|exact Hf]; simpl; intros; lia).
    destruct (is_word c && negb prev); simpl.
    + split; constructor; try assumption; try lia.
      eapply Forall_impl; [|exact Hf']; simpl; intros; lia.
    + split; [assumption|].
      eapply Forall_impl; [|exact Hf']; simpl; intros; lia.
Qed.

Lemma word_ends_sorted (s : jsstring) :
  forall (prev : bool) (pos : Z),
    StronglySorted Z.lt (word_ends prev pos s)
    /\ Forall (fun x => pos <= x) (word_ends prev pos s).
Proof.
  induction s as [|c t IH]; intros prev pos; simpl.
  - destruct prev; split; repeat constructor. lia.
  - destruct (IH (is_word c) (pos + 1)) as [Hs Hf].
    assert (Hf' : Forall (fun x => pos < x)
                         (word_ends (is_word c) (pos + 1) t))
      by (eapply Forall_impl; [|exact Hf]; simpl; intros; lia).
    destruct (prev && negb (is_word c)); simpl.
    + split; constructor; try assumption; try lia.
      eapply Forall_impl; [|exact Hf']; simpl; intros; lia.
    + split; [assumption|].
      eapply Forall_impl; [|exact Hf']; simpl; intros; lia.
Qed.

(** [find] in an increasing list, from the left and from the right. *)
Lemma find_first_above (l : list Z) (offset : Z) :
  StronglySorted Z.lt l ->
  match find (fun x => x >? offset) l with
  | Some r =>
      In r l /\ offset < r /\ forall y, In y l -> offset < y -> r <= y
  | None => forall y, In y l -> y <= offset
  end.
Proof.
  induction 1 as [|a l Hs IH Hf]; simpl; [intros y []|].
  rewrite Forall_forall in Hf.
  destruct (Z.gtb_spec a offset) as [Ha|Ha].
  - split; [left; reflexivity|]. split; [lia|].
    intros y [<-|Hy] _; [lia|]. specialize (Hf y Hy). lia.
  - destruct (find (fun x => x >? offset) l) as [r|].
    + destruct IH as (Hin & Hr & Hmin). split; [right; exact Hin|].
      split; [exact Hr|]. intros y [<-|Hy] Hgt; [lia|]. auto.
    + intros y [<-|Hy]; [lia | auto].
Qed.

Lemma find_app {A : Type} (f : A -> bool) (l1 l2 : list A) :
  find f (l1 ++ l2)
  = match find f l1 with
    | Some x => Some x
    | None => find f l2
    end.
Proof.
  induction l1 as [|a l1 IH]; simpl; [reflexivity|].
  destruct (f a); [reflexivity | exact IH].
Qed.

Lemma find_last_below (l : list Z) (offset : Z) :
  StronglySorted Z.lt l ->
  match find (fun x => x <? offset) (rev l) with
  | Some r =>
      In r l /\ r < offset /\ forall y, In y l -> y < offset -> y <= r
  | None => forall y, In y l -> offset <= y
  end.
Proof.
  induction 1 as [|a l Hs IH Hf]; simpl; [intros y []|].
  rewrite Forall_forall in Hf. rewrite find_app.
  destruct (find (fun x => x <? offset) (rev l)) as [r|].
  - destruct IH as (Hin & Hr & Hmax). split; [right; exact Hin|].
    split; [exact Hr|]. intros y [<-|Hy] Hlt; [|auto].
    specialize (Hf r Hin). lia.
  - simpl. destruct (Z.ltb_spec a offset) as [Ha|Ha].
    + split; [left; reflexivity|]. split; [lia|].
      intros y [<-|Hy] Hlt; [lia|]. specialize (IH y Hy). lia.
    + intros y [<-|Hy]; [lia | auto].
Qed.

Lemma is_word_start_range (input : jsstring) (x : Z) :
  is_word_start input x = true -> 0 <= x < len input.
Proof.
  unfold is_word_start. intros H. apply andb_true_iff in H.
  destruct H as [H _]. exact (word_at_range _ _ H).
Qed.

Lemma is_word_end_range (input : jsstring) (x : Z) :
  is_word_end input x = true -> 0 < x <= len input.
Proof.
  unfold is_word_end. intros H. apply andb_true_iff in H.
  destruct H as [H _]. apply word_at_range in H. lia.
Qed.

Lemma closestLeftBoundary_cases (input : jsstring) (offset : Z) :
  let l := closestLeftBoundary input offset in
  (is_word_start input l = true /\ l < offset
   /\ forall s, is_word_start input s = true -> s < offset -> s <= l)
  \/ (l = 0 /\ forall s, is_word_start input s = true -> offset <= s).
Proof.
  unfold closestLeftBoundary.
  pose proof (find_last_below (wordBoundaries input true) offset) as H.
  rewrite wordBoundaries_left in H at 1.
  specialize (H (proj1 (word_starts_sorted input false 0))).
  destruct (find (fun x => x <? offset) (rev (wordBoundaries input true)))
    as [l|]; simpl.
  - destruct H as (Hin & Hlt & Hmax). left.
    split; [apply wordBoundaries_left_In; exact Hin|].
    split; [exact Hlt|]. intros s Hs. apply Hmax.
    apply wordBoundaries_left_In. exact Hs.
  - right. split; [reflexivity|]. intros s Hs. apply H.
    apply wordBoundaries_left_In. exact Hs.
Qed.

Lemma closestRightBoundary_cases (input : jsstring) (offset : Z) :
  let r := closestRightBoundary input offset in
  (is_word_end input r = true /\ offset < r
   /\ forall e, is_word_end input e = true -> offset < e -> r <= e)
  \/ (r = len input /\ forall e, is_word_end input e = true -> e <= offset).
Proof.
  unfold closestRightBoundary.
  pose proof (find_first_above (wordBoundaries input false) offset) as H.
  rewrite wordBoundaries_right in H at 1.
  specialize (H (proj1 (word_ends_sorted input false 0))).
  destruct (find (fun x => x >? offset) (wordBoundaries input false))
    as [r|]; simpl.
  - destruct H as (Hin & Hlt & Hmin). left.
    split; [apply wordBoundaries_right_In; exact Hin|].
    split; [exact Hlt|]. intros e He. apply Hmin.
    apply wordBoundaries_right_In. exact He.
  - right. split; [reflexivity|]. intros e He. apply H.
    apply wordBoundaries_right_In. exact He.
Qed.

(** C9.  [closestLeftBoundary] gives the largest start of a run of word
    characters that is below the offset, and 0 when there is none;
    [closestRightBoundary] gives the smallest end of such a run that is
    above the offset, and the length of the text when there is none.  Both
    are total and give an index between 0 and the length of the text. *)
Theorem closest_boundaries (input : jsstring) (offset : Z) :
  let l := closestLeftBoundary input offset in
  let r := closestRightBoundary input offset in
  ((exists s, is_word_start input s = true /\ s < offset) ->
   is_word_start input l = true /\ l < offset
   /\ forall s, is_word_start input s = true -> s < offset -> s <= l)
  /\ ((forall s, is_word_start input s = true -> offset <= s) -> l = 0)
  /\ ((exists e, is_word_end input e = true /\ offset < e) ->
      is_word_end input r = true /\ offset < r
      /\ forall e, is_word_end input e = true -> offset < e -> r <= e)
  /\ ((forall e, is_word_end input e = true -> e <= offset) ->
      r = len input)
  /\ 0 <= l <= len input
  /\ 0 <= r <= len input.
Proof.
  intros l r.
  assert (Hlen : 0 <= len input) by (unfold len; lia).
  pose proof (closestLeftBoundary_cases input offset) as HL.
  pose proof (closestRightBoundary_cases input offset) as HR.
  cbv zeta in HL, HR. fold l in HL. fold r in HR.
  split; [|split; [|split; [|split; [|split]]]].
  - intros (s & Hs & Hlt).
    destruct HL as [HL|[_ Hnone]]; [exact HL|].
    specialize (Hnone s Hs). lia.
  - intros Hnone. destruct HL as [(Hs & Hlt & _)|[H0 _]]; [|exact H0].
    specialize (Hnone l Hs). lia.
  - intros (e & He & Hlt).
    destruct HR as [HR|[_ Hnone]]; [exact HR|].
    specialize (Hnone e He). lia.
  - intros Hnone. destruct HR as [(He & Hlt & _)|[H0 _]]; [|exact H0].
    specialize (Hnone r He). lia.
  - destruct HL as [(Hs & _)|[-> _]]; [|lia].
    apply is_word_start_range in Hs. lia.
  - destruct HR as [(He & _)|[-> _]]; [|lia].
    apply is_word_end_range in He. lia.
Qed.

Lemma closest_boundaries_witness :
  (is_word_start hello_world (closestLeftBoundary hello_world 8) = true
   /\ closestLeftBoundary hello_world 8 < 8
   /\ forall s, is_word_start hello_world s = true -> s < 8 ->
                s <= closestLeftBoundary hello_world 8)
  /\ (is_word_end hello_world (closestRightBoundary hello_world 8) = true
      /\ 8 < closestRightBoundary hello_world 8
      /\ forall e, is_word_end hello_world e = true -> 8 < e ->
                   closestRightBoundary hello_world 8 <= e).
Proof.
  destruct (closest_boundaries hello_world 8) as (HL & _ & HR & _).
  split.
  - apply HL. exists 0. split; [reflexivity | lia].
  - apply HR. exists 18. split; [reflexivity | lia].
Defined.

Example closest_boundaries_hello_world :
  closestLeftBoundary hello_world 8 = 6
  /\ closestRightBoundary hello_world 8 = 13
  /\ closestLeftBoundary hello_world 0 = 0
  /\ closestRightBoundary hello_world 18 = 18
  /\ closestLeftBoundary hello_world (-3) = 0
  /\ closestRightBoundary hello_world 99 = 18.
Proof. repeat apply conj; reflexivity. Qed.

(** ** Removing the escapes *)

Lemma replace_all_length (r : regex) (n : nat) :
  forall s : jsstring,
    (length s <= n)%nat -> (length (replace_all r s) <= length s)%nat.
Proof.
  induction n as [|n IH]; intros s Hlen.
  - destruct s; [|simpl in Hlen; lia]. simp replace_all. lia.
  - destruct s as [|c t]; [simp replace_all; lia|].
    simpl in Hlen. rewrite replace_all_cons.
    assert (Hkeep : (length (c :: replace_all r t) <= length (c :: t))%nat)
      by (simpl; specialize (IH t); lia).
    destruct (match_at r (c :: t)) as [[|k]|]; try exact Hkeep.
    pose proof (length_skipn k t) as Hk.
    specialize (IH (skipn k t)). simpl. lia.
Qed.

(** A text without a match is left as it is. *)
Lemma replace_all_fixed (r : regex) (s : jsstring) :
  rx_test r s = false -> replace_all r s = s.
Proof.
  induction s as [|c t IH]; [intros _; simp replace_all; reflexivity|].
  cbn [rx_test]. rewrite replace_all_cons.
  destruct (match_at r (c :: t)); [discriminate|].
  intros H. rewrite (IH H). reflexivity.
Qed.

(** A text with a match gets shorter, when no match is empty. *)
Lemma replace_all_shrinks (r : regex) (s : jsstring) :
  (forall u, match_at r u <> Some O) ->
  rx_test r s = true ->
  (length (replace_all r s) < length s)%nat.
Proof.
  intros Hpos. induction s as [|c t IH].
  - cbn [rx_test]. destruct (match_at r []) as [n|] eqn:E; [|discriminate].
    pose proof (match_at_bound _ _ _ E) as Hn. simpl in Hn.
    assert (n = O) as -> by lia. destruct (Hpos _ E).
  - cbn [rx_test]. rewrite replace_all_cons.
    destruct (match_at r (c :: t)) as [[|k]|] eqn:E.
    + destruct (Hpos _ E).
    + intros _.
      pose proof (replace_all_length r _ (skipn k t) (le_n _)) as H1.
      pose proof (length_skipn k t) as H2. simpl. lia.
    + intros H. specialize (IH H). simpl. lia.
Qed.

(** A removed sequence starts with ESC and is not empty. *)
Lemma match_at_ansi_rx (s : jsstring) (n : nat) :
  match_at ansi_rx s = Some n ->
  exists t, s = ESC :: t /\ (1 <= n)%nat.
Proof.
  unfold match_at, ansi_rx.
  match goal with
  | |- context [Seq (Lit 91) ?b] => generalize b
  end.
  intros body. cbn [rmatch].
  destruct s as [|x t]; [discriminate|].
  destruct (Z.eqb_spec x ESC) as [->|]; [|discriminate].
  intros H. exists t. split; [reflexivity|].
  destruct t as [|y u]; [discriminate|].
  destruct (y =? 91); [|discriminate].
  apply rmatch_inv in H. destruct H as (v & Hv & [= <-]).
  destruct (length v) as [|[|l0]]; lia.
Qed.

Lemma match_at_ansi_rx_positive (u : jsstring) :
  match_at ansi_rx u <> Some O.
Proof.
  intros H. apply match_at_ansi_rx in H. destruct H as (_ & _ & H). lia.
Qed.

Lemma rx_test_ansi_rx_no_ESC (s : jsstring) :
  (forall c, In c s -> c <> ESC) -> rx_test ansi_rx s = false.
Proof.
  induction s as [|x t IH]; intros H; cbn [rx_test].
  - destruct (match_at ansi_rx []) eqn:E; [|reflexivity].
    apply match_at_ansi_rx in E. destruct E as (u & [=] & _).
  - destruct (match_at ansi_rx (x :: t)) eqn:E.
    + apply match_at_ansi_rx in E. destruct E as (u & [= -> _] & _).
      destruct (H ESC (or_introl eq_refl) eq_refl).
    + apply IH. intros c Hc. apply H. right. exact Hc.
Qed.

(** What the matcher finds is in the language of the expression. *)
Lemma rmatch_sound {A : Type} (r : regex) :
  forall (s : jsstring) (k : jsstring -> option A) (v : A),
    rmatch r s k = Some v ->
    exists w t, s = w ++ t /\ matches r w t /\ k t = Some v.
Proof.
  induction r as [c|p|r1 IH1 r2 IH2|r1 IH1 r2 IH2|r1 IH1
                  |lo hi r1 IH1|p|]; intros s k v; cbn [rmatch].
  - destruct s as [|x t]; [discriminate|].
    destruct (Z.eqb_spec x c) as [->|]; [|discriminate].
    intros H. exists [c], t. repeat split; [constructor | exact H].
  - destruct s as [|x t]; [discriminate|].
    destruct (p x) eqn:E; [|discriminate].
    intros H. exists [x], t. repeat split; [constructor; exact E | exact H].
  - intros H. apply IH1 in H. destruct H as (w1 & t1 & -> & M1 & H).
    apply IH2 in H. destruct H as (w2 & t2 & -> & M2 & H).
    exists (w1 ++ w2), t2. split; [apply app_assoc|].
    split; [constructor; assumption | exact H].
  - destruct (rmatch r1 s k) eqn:E.
    + intros [= <-]. apply IH1 in E. destruct E as (w & t & -> & M & H).
      exists w, t. repeat split; [apply m_alt_l; exact M | exact H].
    + intros H. apply IH2 in H. destruct H as (w & t & -> & M & H).
      exists w, t. repeat split; [apply m_alt_r; exact M | exact H].
  - destruct (rmatch r1 s k) eqn:E.
    + intros [= <-]. apply IH1 in E. destruct E as (w & t & -> & M & H).
      exists w, t. repeat split; [apply m_opt_some; exact M | exact H].
    + intros H. exists [], s. repeat split; [apply m_opt_none | exact H].
  - revert lo s v. induction hi as [|hi IHhi]; intros lo s v.
    + destruct lo; [|discriminate].
      intros H. exists [], s. repeat split; [constructor | exact H].
    + match goal with
      | |- context [rmatch r1 s ?k'] => destruct (rmatch r1 s k') eqn:E
      end.
      * intros [= <-]. apply IH1 in E. destruct E as (w1 & t1 & -> & M1 & E).
        apply IHhi in E. destruct E as (w2 & t2 & -> & M2 & E).
        exists (w1 ++ w2), t2. split; [apply app_assoc|].
        split; [apply m_rep_more; assumption | exact E].
      * destruct lo; [|discriminate].
        intros H. exists [], s. repeat split; [constructor | exact H].
  - revert v. induction s as [|x t IHt]; intros v; [discriminate|].
    destruct (p x) eqn:Ep; [|discriminate].
    match goal with
    | |- context [match ?e with Some _ => _ | None => _ end] =>
        destruct e eqn:E
    end.
    + intros [= <-]. destruct (IHt _ eq_refl) as (w & u & -> & M & H).
      exists (x :: w), u. repeat split; [|exact H].
      apply m_plus_more; assumption.
    + intros H. exists [x], t. repeat split; [|exact H].
      apply m_plus_one; exact Ep.
  - destruct s as [|x t].
    + intros H. exists [], []. repeat split; [constructor | exact H].
    + destruct (is_line_terminator x) eqn:E; [|discriminate].
      intros H. exists [], (x :: t). repeat split; [|exact H].
      constructor; exact E.
Qed.

Ltac invm H := inversion H; subst; clear H.

Lemma matches_param (w rest : jsstring) :
  matches (Rep 1 2 (Class is_digit)) w rest -> is_param w = true.
Proof.
  intros H. invm H.
  match goal with H : matches (Class _) _ _ |- _ => invm H end.
  match goal with H : matches (Rep _ _ _) _ _ |- _ => invm H end.
  - simpl. assumption.
  - match goal with H : matches (Class _) _ _ |- _ => invm H end.
    match goal with H : matches (Rep _ _ _) _ _ |- _ => invm H end.
    simpl. apply andb_true_iff. split; assumption.
Qed.

Lemma matches_ansi_rx (w rest : jsstring) :
  matches ansi_rx w rest -> csi_sequence w.
Proof.
  unfold ansi_rx. intros H.
  invm H.
  match goal with H : matches (Lit _) _ _ |- _ => invm H end.
  match goal with H : matches (Seq (Lit _) _) _ _ |- _ => invm H end.
  match goal with H : matches (Lit _) _ _ |- _ => invm H end.
  match goal with H : matches (Seq (Opt _) _) _ _ |- _ => invm H end.
  match goal with H : matches (Class is_csi_final) _ _ |- _ => invm H end.
  match goal with
  | H : matches (Opt _) ?ps _ |- _ => exists ps; eexists; split;
      [reflexivity|split; [|eassumption]]; invm H
  end.
  - match goal with H : matches (Seq _ _) _ _ |- _ => invm H end.
    match goal with
    | H : matches (Rep _ _ _) _ _ |- _ => apply matches_param in H
    end.
    match goal with H : matches (Opt _) _ _ |- _ => invm H end.
    + match goal with H : matches (Seq _ _) _ _ |- _ => invm H end.
      match goal with H : matches (Lit _) _ _ |- _ => invm H end.
      match goal with
      | H : matches (Rep _ _ _) _ _ |- _ => apply matches_param in H
      end.
      apply params_two; assumption.
    + rewrite app_nil_r. apply params_one; assumption.
  - apply params_none.
Qed.

Lemma is_csi_final_cases (f : Z) :
  is_csi_final f = true -> f = 109 \/ f = 124 \/ f = 75.
Proof.
  unfold is_csi_final.
  destruct (Z.eqb_spec f 109); [auto|].
  destruct (Z.eqb_spec f 124); [auto|].
  destruct (Z.eqb_spec f 75); [auto|discriminate].
Qed.

Lemma is_param_cases (d : jsstring) :
  is_param d = true ->
  (exists a, d = [a] /\ is_digit a = true)
  \/ (exists a b, d = [a; b] /\ is_digit a = true /\ is_digit b = true).
Proof.
  destruct d as [|a [|b [|c d]]]; simpl; try discriminate.
  - intros H. left. exists a. auto.
  - intros H. apply andb_true_iff in H. right. exists a, b. tauto.
Qed.

Lemma rmatch_ansi_rx_complete {A : Type} (w post : jsstring)
      (k : jsstring -> option A) (v : A) :
  csi_sequence w -> k post = Some v ->
  rmatch ansi_rx (w ++ post) k = Some v.
Proof.
  intros (ps & f & -> & Hps & Hf) Hk.
  apply is_csi_final_cases in Hf.
  destruct Hps as [|d Hd|d1 d2 Hd1 Hd2].
  - destruct Hf as [-> | [-> | ->]]; simpl; exact Hk.
  - apply is_param_cases in Hd.
    destruct Hd as [(a & -> & Ha)|(a & b & -> & Ha & Hb)];
      destruct Hf as [-> | [-> | ->]];
      unfold ansi_rx; cbn [rmatch app Nat.pred]; rewrite ?Ha, ?Hb;
      simpl; rewrite Hk; reflexivity.
  - apply is_param_cases in Hd1. apply is_param_cases in Hd2.
    destruct Hd1 as [(a & -> & Ha)|(a & b & -> & Ha & Hb)];
      destruct Hd2 as [(c & -> & Hc)|(c & d & -> & Hc & Hd)];
      destruct Hf as [-> | [-> | ->]];
      unfold ansi_rx; cbn [rmatch app Nat.pred]; rewrite ?Ha, ?Hb, ?Hc, ?Hd;
      simpl; rewrite ?Hc, ?Hd; simpl; rewrite Hk; reflexivity.
Qed.

(** The sequences that [removeANSI] takes out, at a position of the text:
    ESC, a bracket, the parameters, and one of [m], [|] and [K]. *)
Lemma match_at_ansi_rx_iff (s : jsstring) (n : nat) :
  match_at ansi_rx s = Some n
  <-> (n <= length s)%nat /\ csi_sequence (firstn n s).
Proof.
  split.
  - intros H. split; [exact (match_at_bound _ _ _ H)|].
    unfold match_at in H. apply rmatch_sound in H.
    destruct H as (w & t & -> & M & [= <-]).
    rewrite length_app, Nat.add_sub, firstn_app, Nat.sub_diag, firstn_all.
    simpl. rewrite app_nil_r. exact (matches_ansi_rx _ _ M).
  - intros [Hn Hseq]. unfold match_at.
    rewrite <- (firstn_skipn n s) at 1.
    apply rmatch_ansi_rx_complete; [exact Hseq|].
    f_equal. rewrite length_skipn. lia.
Qed.

Lemma rx_test_true_iff (r : regex) (s : jsstring) :
  rx_test r s = true
  <-> exists pre u n, s = pre ++ u /\ match_at r u = Some n.
Proof.
  induction s as [|c t IH]; cbn [rx_test].
  - destruct (match_at r []) as [n|] eqn:E.
    + split; [|reflexivity]. intros _. exists [], [], n. auto.
    + split; [discriminate|]. intros (pre & u & n & Heq & Hm).
      symmetry in Heq. apply app_eq_nil in Heq. destruct Heq as [-> ->].
      congruence.
  - destruct (match_at r (c :: t)) as [n|] eqn:E.
    + split; [|reflexivity]. intros _. exists [], (c :: t), n. auto.
    + rewrite IH. split.
      * intros (pre & u & n & -> & Hm). exists (c :: pre), u, n. auto.
      * intros (pre & u & n & Heq & Hm). destruct pre as [|x pre].
        -- simpl in Heq. subst u. congruence.
        -- injection Heq as <- ->. exists pre, u, n. auto.
Qed.

(** A text has a match of the expression when a removed sequence occurs
    in it. *)
Lemma rx_test_ansi_rx_iff (s : jsstring) :
  rx_test ansi_rx s = true
  <-> exists pre w post, s = pre ++ w ++ post /\ csi_sequence w.
Proof.
  rewrite rx_test_true_iff. split.
  - intros (pre & u & n & -> & Hm). apply match_at_ansi_rx_iff in Hm.
    destruct Hm as [_ Hseq].
    exists pre, (firstn n u), (skipn n u).
    rewrite firstn_skipn. auto.
  - intros (pre & w & post & -> & Hseq).
    exists pre, (w ++ post), (length w). split; [reflexivity|].
    apply match_at_ansi_rx_iff. rewrite length_app. split; [lia|].
    rewrite firstn_app, Nat.sub_diag, firstn_all. simpl.
    rewrite app_nil_r. exact Hseq.
Qed.

(** C5, as the code has it.  Removing the escapes a second time changes
    nothing exactly when the first removal has left no sequence of the
    removed form; this is so, in particular, when it has left no ESC, and a
    text without ESC is not changed at all. *)
Theorem removeANSI_idempotent_iff (s : jsstring) :
  (removeANSI (removeANSI s) = removeANSI s
   <-> ~ exists pre w post,
           removeANSI s = pre ++ w ++ post /\ csi_sequence w)
  /\ ((forall c, In c (removeANSI s) -> c <> ESC) ->
      removeANSI (removeANSI s) = removeANSI s)
  /\ ((forall c, In c s -> c <> ESC) -> removeANSI s = s).
Proof.
  split; [|split].
  - rewrite <- rx_test_ansi_rx_iff. unfold removeANSI. split.
    + intros H E.
      apply (replace_all_shrinks _ _ match_at_ansi_rx_positive) in E.
      rewrite H in E. lia.
    + intros H. apply replace_all_fixed.
      destruct (rx_test ansi_rx (replace_all ansi_rx s));
        [destruct (H eq_refl) | reflexivity].
  - intros H. apply replace_all_fixed, rx_test_ansi_rx_no_ESC, H.
  - intros H. apply replace_all_fixed, rx_test_ansi_rx_no_ESC, H.
Qed.

Lemma removeANSI_idempotent_iff_witness :
  removeANSI (removeANSI red_text) = removeANSI red_text
  /\ removeANSI (js "plain") = js "plain".
Proof.
  split.
  - apply (proj1 (proj2 (removeANSI_idempotent_iff red_text))).
    intros c H.
    change (In c (js "red")) in H. simpl in H.
    destruct H as [<-|[<-|[<-|[]]]]; discriminate.
  - apply (proj2 (proj2 (removeANSI_idempotent_iff (js "plain")))).
    intros c H. simpl in H.
    destruct H as [<-|[<-|[<-|[<-|[<-|[]]]]]]; discriminate.
Defined.

(** C5, as it is stated, fails: taking a sequence out can put together a
    new one, which the next pass takes out in turn. *)
Lemma removeANSI_not_idempotent :
  removeANSI nested_escape = [ESC] ++ js "[m"
  /\ removeANSI (removeANSI nested_escape) = []
  /\ removeANSI (removeANSI nested_escape) <> removeANSI nested_escape.
Proof.
  repeat apply conj; vm_compute; first [reflexivity | discriminate].
Qed.

(** C7.  What [removeANSI] takes out at a position of the text is a
    sequence of ESC, a bracket, no parameter or one or two (the second after
    a semicolon, and only after a first), and a last character that is [m],
    [K] or a bar: the class [[m|K]] of the regular expression has three
    members, so a sequence that ends with a bar is removed as well. *)
Theorem removeANSI_removes_bar_terminated :
  (forall (s : jsstring) (n : nat),
      match_at ansi_rx s = Some n
      <-> (n <= length s)%nat /\ csi_sequence (firstn n s))
  /\ is_csi_final 124 = true
  /\ removeANSI ([ESC] ++ js "[0|") = []
  /\ removeANSI (js "a" ++ [ESC] ++ js "[1;31|b") = js "ab"
  /\ removeANSI ([ESC] ++ js "[0m") = []
  /\ removeANSI ([ESC] ++ js "[0K") = []
  /\ removeANSI ([ESC] ++ js "[0J") = [ESC] ++ js "[0J"
  /\ removeANSI ([ESC] ++ js "[;3K") = [ESC] ++ js "[;3K".
Proof.
  split; [exact match_at_ansi_rx_iff|].
  repeat apply conj; vm_compute; reflexivity.
Qed.

(** * Further properties *)

(** ** Widths *)

Lemma calcWidth_fold (s : jsstring) (acc : Z) :
  fold_left (fun a c => a + char_width c) s acc = acc + calcWidth s.
Proof.
  unfold calcWidth. revert acc. induction s as [|c t IH]; intros acc; simpl.
  - lia.
  - rewrite IH, (IH (char_width c)). lia.
Qed.

Lemma calcWidth_cons (c : Z) (s : jsstring) :
  calcWidth (c :: s) = char_width c + calcWidth s.
Proof.
  unfold calcWidth at 1. simpl. apply calcWidth_fold.
Qed.

Lemma calcWidth_range (s : jsstring) : 0 <= calcWidth s <= 2 * len s.
Proof.
  unfold len. induction s as [|c t IH]; [rewrite calcWidth_nil; simpl; lia|].
  rewrite calcWidth_cons. pose proof (char_width_range c).
  change (length (c :: t)) with (S (length t)). lia.
Qed.

Lemma calcWidth_app (s t : jsstring) :
  calcWidth (s ++ t) = calcWidth s + calcWidth t.
Proof.
  induction s as [|c s IH].
  - change ([] ++ t) with t. rewrite calcWidth_nil. lia.
  - change ((c :: s) ++ t) with (c :: (s ++ t)).
    rewrite !calcWidth_cons, IH. lia.
Qed.

(** X1.  The width of a text is the sum of the widths of its parts, and
    lies between 0 and twice the number of its code units. *)
Theorem calcWidth_additive (s t : jsstring) :
  calcWidth (s ++ t) = calcWidth s + calcWidth t
  /\ 0 <= calcWidth s <= 2 * len s.
Proof.
  split; [apply calcWidth_app | apply calcWidth_range].
Qed.

Lemma is_wide_range (c : Z) :
  is_wide c = true -> 0x1100 <= c <= 0xFFE6.
Proof.
  unfold is_wide. intros H. apply existsb_exists in H.
  destruct H as ([lo hi] & Hin & Hr). unfold in_range in Hr. simpl in Hr.
  apply andb_true_iff in Hr. destruct Hr as [Hlo Hhi].
  apply Z.leb_le in Hlo. apply Z.leb_le in Hhi.
  unfold wide_ranges in Hin. simpl in Hin.
  repeat (destruct Hin as [Hin|Hin];
          [injection Hin as <- <-; lia|]).
  destruct Hin.
Qed.

Lemma is_wide_not_zero (c : Z) :
  is_wide c = true -> is_zero_width c || is_special c = false.
Proof.
  unfold is_wide. intros H. apply existsb_exists in H.
  destruct H as ([lo hi] & Hin & Hr). unfold in_range in Hr. simpl in Hr.
  apply andb_true_iff in Hr. destruct Hr as [Hlo Hhi].
  apply Z.leb_le in Hlo. apply Z.leb_le in Hhi.
  unfold is_zero_width, is_special, in_range.
  unfold wide_ranges in Hin. simpl in Hin.
  repeat (destruct Hin as [Hin|Hin];
          [injection Hin as <- <-;
           repeat match goal with
                  | |- context [?a <=? ?b] => destruct (Z.leb_spec a b)
                  | |- context [?a =? ?b] => destruct (Z.eqb_spec a b)
                  end; simpl; try reflexivity; lia|]).
  destruct Hin.
Qed.

(** X2.  The three classes of characters do not overlap, so the order of
    the tests of [calcWidth] does not matter: a character has width 2
    exactly when it is in one of the wide ranges, width 0 exactly when it is
    a zero-width or a special character, and width 1 otherwise; every
    code unit below U+0591 has width 1. *)
Theorem calcWidth_classes (c : Z) :
  (calcWidth [c] = 2 <-> is_wide c = true)
  /\ (calcWidth [c] = 0 <-> is_zero_width c || is_special c = true)
  /\ (calcWidth [c] = 1 <->
      is_wide c = false /\ is_zero_width c || is_special c = false)
  /\ (c < 0x0591 -> calcWidth [c] = 1).
Proof.
  rewrite calcWidth_single, char_width_cases.
  pose proof (is_wide_not_zero c) as Hd.
  pose proof (is_wide_range c) as Hr.
  assert (Hlow : c < 0x0591 -> is_zero_width c || is_special c = false).
  { intros Hc. unfold is_zero_width, is_special, in_range.
    repeat match goal with
           | |- context [?a <=? ?b] => destruct (Z.leb_spec a b)
           | |- context [?a =? ?b] => destruct (Z.eqb_spec a b)
           end; simpl; try reflexivity; lia. }
  destruct (is_zero_width c || is_special c) eqn:Ez;
    destruct (is_wide c) eqn:Ew;
    [specialize (Hd eq_refl); discriminate| | |].
  all: repeat split; intros;
    repeat match goal with H : _ /\ _ |- _ => destruct H end;
    try discriminate; try lia; try reflexivity.
  all: try (specialize (Hlow ltac:(assumption)); discriminate).
  all: specialize (Hr eq_refl); lia.
Qed.

(** ** Tailing white space *)

Lemma match_at_tailing_whitespace (u : jsstring) (n : nat) :
  match_at tailing_whitespace_rx u = Some n
  <-> n = 2%nat
      /\ exists a b post,
          u = a :: b :: post
          /\ a <> BACKSLASH /\ (b = 32 \/ b = 9)
          /\ (post = []
              \/ exists c rest,
                  post = c :: rest /\ is_line_terminator c = true).
Proof.
  unfold match_at, tailing_whitespace_rx. cbn [rmatch].
  destruct u as [|a [|b post]].
  - split; [discriminate|]. intros (_ & a & b & post & [=] & _).
  - destruct (negb (a =? BACKSLASH)); (split; [discriminate|]);
      intros (_ & a' & b & post & [=] & _).
  - assert (L : (length (a :: b :: post) - length post)%nat = 2%nat)
      by (change (length (a :: b :: post)) with (S (S (length post))); lia).
    rewrite L.
    destruct (Z.eqb_spec a BACKSLASH) as [Ha|Ha]; simpl negb; cbv iota.
    { split; [discriminate|].
      intros (_ & a' & b' & post' & [= <- <- <-] & Hn & _). contradiction. }
    destruct (Z.eqb_spec b 32) as [Hb|Hb]; simpl orb; cbv iota.
    + destruct post as [|c rest].
      * split; [intros [= <-]|intros [-> _]; reflexivity].
        split; [reflexivity|]. exists a, b, []. auto.
      * destruct (is_line_terminator c) eqn:Ec.
        -- split; [intros [= <-]|intros [-> _]; reflexivity].
           split; [reflexivity|]. exists a, b, (c :: rest).
           repeat split; auto. right. exists c, rest. auto.
        -- split; [discriminate|].
           intros (_ & a' & b' & post' & [= <- <- <-] & _ & _ & Hp).
           destruct Hp as [Hp|(c' & rest' & [= <- <-] & Hc)];
             [discriminate | congruence].
    + destruct (Z.eqb_spec b 9) as [Hb9|Hb9]; cbv iota.
      * destruct post as [|c rest].
        -- split; [intros [= <-]|intros [-> _]; reflexivity].
           split; [reflexivity|]. exists a, b, []. auto.
        -- destruct (is_line_terminator c) eqn:Ec.
           ++ split; [intros [= <-]|intros [-> _]; reflexivity].
              split; [reflexivity|]. exists a, b, (c :: rest).
              repeat split; auto. right. exists c, rest. auto.
           ++ split; [discriminate|].
              intros (_ & a' & b' & post' & [= <- <- <-] & _ & _ & Hp).
              destruct Hp as [Hp|(c' & rest' & [= <- <-] & Hc)];
                [discriminate | congruence].
      * split; [discriminate|].
        intros (_ & a' & b' & post' & [= <- <- <-] & _ & [Hb'|Hb'] & _);
          contradiction.
Qed.

(** X3.  [hasTailingWhitespace] holds exactly when some line of the input
    ends with a space or a tab that a character other than a backslash
    precedes: the end of a line is the end of the input or the place before
    a line terminator.  An input of fewer than two characters never has
    tailing white space. *)
Theorem hasTailingWhitespace_iff (input : jsstring) :
  (hasTailingWhitespace input = true
   <-> exists pre a b post,
         input = pre ++ a :: b :: post
         /\ a <> BACKSLASH /\ (b = 32 \/ b = 9)
         /\ (post = []
             \/ exists c rest,
                 post = c :: rest /\ is_line_terminator c = true))
  /\ ((length input < 2)%nat -> hasTailingWhitespace input = false).
Proof.
  assert (Hiff : hasTailingWhitespace input = true
                 <-> exists pre a b post,
                       input = pre ++ a :: b :: post
                       /\ a <> BACKSLASH /\ (b = 32 \/ b = 9)
                       /\ (post = []
                           \/ exists c rest,
                               post = c :: rest
                               /\ is_line_terminator c = true)).
  { unfold hasTailingWhitespace. rewrite rx_test_true_iff. split.
    - intros (pre & u & n & -> & Hm).
      apply match_at_tailing_whitespace in Hm.
      destruct Hm as (_ & a & b & post & -> & H).
      exists pre, a, b, post. split; [reflexivity | exact H].
    - intros (pre & a & b & post & -> & H).
      exists pre, (a :: b :: post), 2%nat. split; [reflexivity|].
      apply match_at_tailing_whitespace. split; [reflexivity|].
      exists a, b, post. split; [reflexivity | exact H]. }
  split; [exact Hiff|].
  intros Hlen. apply not_true_is_false. intros E.
  apply Hiff in E. destruct E as (pre & a & b & post & -> & _).
  rewrite length_app in Hlen. simpl in Hlen. lia.
Qed.

Lemma hasTailingWhitespace_iff_witness :
  hasTailingWhitespace (js " ") = false.
Proof.
  apply (proj2 (hasTailingWhitespace_iff (js " "))). simpl. lia.
Defined.

(** ** More on collecting the candidates *)

Lemma filter_all {A : Type} (f : A -> bool) (l : list A) :
  (forall x, In x l -> f x = true) -> filter f l = l.
Proof.
  induction l as [|a l IH]; intros H; simpl; [reflexivity|].
  rewrite (H a (or_introl eq_refl)), IH; [reflexivity|].
  intros x Hx. apply H. right. exact Hx.
Qed.

Section CollectMore.

Variable object : Type.
Variable parse : jsstring -> list (@token object).
Variable value : Type.
Variable error : Type.

Lemma collect_eq (callbacks : list (callback object value error))
      (input : jsstring) :
  collectAutocompleteCandidates parse callbacks input
  = (filter (fun txt => startsWith txt (active_text parse input))
            (flat_map (contribution (active_index parse input)
                                    (parse input)) callbacks),
     flat_map (logged (active_index parse input) (parse input)) callbacks).
Proof.
  unfold collectAutocompleteCandidates, active_index, active_text,
    pop_or_empty.
  destruct (str_eqb (trim input) []);
    [|destruct (hasTailingWhitespace input)];
    rewrite collect_fold; simpl; repeat f_equal; lia.
Qed.

(** X4.  The candidates are filtered by the token that [getLastToken]
    gives for the same input: a candidate is returned exactly when some
    callback returns it and it starts with that token. *)
Theorem collectAutocompleteCandidates_getLastToken
        (callbacks : list (callback object value error)) (input : jsstring) :
  fst (collectAutocompleteCandidates parse callbacks input)
  = filter (fun txt => startsWith txt (toString (getLastToken parse input)))
           (flat_map (contribution (active_index parse input) (parse input))
                     callbacks).
Proof.
  rewrite collect_eq. simpl. unfold active_text, getLastToken.
  destruct (str_eqb (trim input) []); [reflexivity|].
  destruct (hasTailingWhitespace input); reflexivity.
Qed.

(** X5.  For an input that is empty or white space only the callbacks are
    called with index 0, and for an input with tailing white space with the
    number of the tokens, one past the last token; in both cases nothing is
    filtered out: all that the callbacks return is returned. *)
Theorem collectAutocompleteCandidates_new_token
        (callbacks : list (callback object value error)) (input : jsstring) :
  (trim input = [] ->
   fst (collectAutocompleteCandidates parse callbacks input)
   = flat_map (contribution 0 (parse input)) callbacks)
  /\ (trim input <> [] -> hasTailingWhitespace input = true ->
      fst (collectAutocompleteCandidates parse callbacks input)
      = flat_map (contribution (Z.of_nat (length (parse input)))
                               (parse input)) callbacks).
Proof.
  rewrite collect_eq. simpl. unfold active_text, active_index. split.
  - intros H. rewrite H. simpl. apply filter_all. reflexivity.
  - intros Hne Ht.
    destruct (str_eqb (trim input) []) eqn:E;
      [apply str_eqb_eq in E; contradiction|].
    rewrite Ht. apply filter_all. reflexivity.
Qed.

(** X6.  Collecting from two lists of callbacks put end to end gives the
    candidates of the first list followed by those of the second, and the
    same for what is logged. *)
Theorem collectAutocompleteCandidates_app
        (cbs1 cbs2 : list (callback object value error)) (input : jsstring) :
  collectAutocompleteCandidates parse (cbs1 ++ cbs2) input
  = (fst (collectAutocompleteCandidates parse cbs1 input)
       ++ fst (collectAutocompleteCandidates parse cbs2 input),
     snd (collectAutocompleteCandidates parse cbs1 input)
       ++ snd (collectAutocompleteCandidates parse cbs2 input)).
Proof.
  rewrite !collect_eq. simpl. rewrite !flat_map_app, filter_app.
  reflexivity.
Qed.

End CollectMore.

Lemma collectAutocompleteCandidates_new_token_witness :
  fst (collectAutocompleteCandidates words_tokenizer
         [@git_grep_go Empty_set unit unit] (js "  "))
  = [js "git"; js "grep"; js "go"]
  /\ fst (collectAutocompleteCandidates words_tokenizer
            [@git_grep_go Empty_set unit unit] (js "git "))
     = [js "git"; js "grep"; js "go"].
Proof.
  split.
  - apply (proj1 (collectAutocompleteCandidates_new_token
                    Empty_set words_tokenizer unit unit
                    [git_grep_go] (js "  "))).
    reflexivity.
  - apply (proj2 (collectAutocompleteCandidates_new_token
                    Empty_set words_tokenizer unit unit
                    [git_grep_go] (js "git "))).
    + vm_compute. discriminate.
    + reflexivity.
Defined.

(** ** More on removing the escapes *)

Lemma replace_all_skip (r : regex) (w post : jsstring) :
  w <> [] -> match_at r (w ++ post) = Some (length w) ->
  replace_all r (w ++ post) = replace_all r post.
Proof.
  destruct w as [|c w]; [contradiction|]. intros _ H.
  change ((c :: w) ++ post) with (c :: (w ++ post)) in *.
  rewrite replace_all_cons, H. change (length (c :: w)) with (S (length w)).
  cbv beta iota. rewrite skipn_app, Nat.sub_diag, skipn_all. reflexivity.
Qed.

Lemma csi_sequence_match (w post : jsstring) :
  csi_sequence w -> w <> [] /\ match_at ansi_rx (w ++ post) = Some (length w).
Proof.
  intros H. split.
  - destruct H as (ps & f & -> & _). discriminate.
  - apply match_at_ansi_rx_iff. rewrite length_app. split; [lia|].
    rewrite firstn_app, Nat.sub_diag, firstn_all. simpl.
    rewrite app_nil_r. exact H.
Qed.

Lemma removeANSI_skip (w post : jsstring) :
  csi_sequence w -> removeANSI (w ++ post) = removeANSI post.
Proof.
  intros H. destruct (csi_sequence_match w post H) as [Hne Hm].
  apply replace_all_skip; assumption.
Qed.

Lemma removeANSI_keep (plain t : jsstring) :
  (forall c, In c plain -> c <> ESC) ->
  removeANSI (plain ++ t) = plain ++ removeANSI t.
Proof.
  unfold removeANSI. induction plain as [|x plain IH]; intros H;
    [reflexivity|].
  change ((x :: plain) ++ t) with (x :: (plain ++ t)).
  rewrite replace_all_cons.
  destruct (match_at ansi_rx (x :: plain ++ t)) as [n|] eqn:E.
  - apply match_at_ansi_rx in E. destruct E as (u & [= -> _] & _).
    destruct (H ESC (or_introl eq_refl) eq_refl).
  - simpl. rewrite IH; [reflexivity|].
    intros c Hc. apply H. right. exact Hc.
Qed.

(** X7.  [removeANSI] never makes a text longer, and it leaves a text as
    it is exactly when no sequence of the removed form occurs in it. *)
Theorem removeANSI_length_fixed (s : jsstring) :
  (length (removeANSI s) <= length s)%nat
  /\ (removeANSI s = s
      <-> ~ exists pre w post, s = pre ++ w ++ post /\ csi_sequence w).
Proof.
  unfold removeANSI. split; [apply (replace_all_length _ _ s (le_n _))|].
  rewrite <- rx_test_ansi_rx_iff. split.
  - intros H E.
    apply (replace_all_shrinks _ _ match_at_ansi_rx_positive) in E.
    rewrite H in E. lia.
  - intros H. apply replace_all_fixed.
    destruct (rx_test ansi_rx s); [destruct (H eq_refl) | reflexivity].
Qed.

(** X8.  A sequence of the removed form is taken out where it stands: the
    text before it, when it has no ESC, is kept as it is, and the removal
    goes on with the text after it. *)
Theorem removeANSI_in_place (plain w rest : jsstring) :
  (forall c, In c plain -> c <> ESC) -> csi_sequence w ->
  removeANSI (plain ++ w ++ rest) = plain ++ removeANSI rest.
Proof.
  intros Hp Hw. rewrite (removeANSI_keep _ _ Hp), (removeANSI_skip _ _ Hw).
  reflexivity.
Qed.

Lemma red_sequence : csi_sequence ([ESC] ++ js "[1;31m").
Proof.
  exists (js "1;31"), 109. split; [reflexivity|]. split; [|reflexivity].
  apply (params_two (js "1") (js "31")); reflexivity.
Qed.

Lemma removeANSI_in_place_witness :
  removeANSI (js "ab" ++ ([ESC] ++ js "[1;31m") ++ js "cd")
  = js "ab" ++ removeANSI (js "cd").
Proof.
  apply removeANSI_in_place.
  - intros c [<-|[<-|[]]]; discriminate.
  - exact red_sequence.
Defined.

(** X9.  A sequence of the removed form before the text does not move the
    cursor: with the offset counted from the start of the sequence, the
    position is that of the text alone at the offset less the length of the
    sequence, and the number of lines is the same. *)
Theorem offsetToColRow_skips_leading_sequence
        (w s : jsstring) (offset maxCols : Z) :
  csi_sequence w ->
  offsetToColRow (w ++ s) (len w + offset) maxCols
  = offsetToColRow s offset maxCols
  /\ countLines (w ++ s) maxCols = countLines s maxCols.
Proof.
  intros Hw.
  assert (H : forall o, offsetToColRow (w ++ s) (len w + o) maxCols
                        = offsetToColRow s o maxCols).
  { intros o. rewrite !offsetToColRow_walk. unfold effective.
    rewrite (removeANSI_skip _ _ Hw), len_app. f_equal. f_equal. lia. }
  split; [apply H|].
  unfold countLines. rewrite len_app, H. reflexivity.
Qed.

Lemma offsetToColRow_skips_leading_sequence_witness :
  offsetToColRow (([ESC] ++ js "[1;31m") ++ js "red") (len ([ESC] ++ js "[1;31m") + 2) 80
  = offsetToColRow (js "red") 2 80.
Proof.
  apply (proj1 (offsetToColRow_skips_leading_sequence
                  ([ESC] ++ js "[1;31m") (js "red") 2 80 red_sequence)).
Defined.

Lemma csi_sequence_alphabet (w : jsstring) (c : Z) :
  csi_sequence w -> In c w -> csi_alphabet c = true.
Proof.
  intros (ps & f & -> & Hps & Hf) Hin. unfold csi_alphabet.
  assert (Hd : forall d, is_param d = true -> In c d -> is_digit c = true).
  { intros d Hd Hc. apply is_param_cases in Hd.
    destruct Hd as [(a & -> & Ha)|(a & b & -> & Ha & Hb)];
      simpl in Hc; intuition congruence. }
  simpl in Hin. destruct Hin as [<-|[<-|Hin]]; [reflexivity|reflexivity|].
  apply in_app_or in Hin. destruct Hin as [Hin|[<-|[]]].
  - destruct Hps as [|d Hp|d1 d2 H1 H2].
    + destruct Hin.
    + rewrite (Hd d Hp Hin). rewrite !orb_true_r. reflexivity.
    + apply in_app_or in Hin. destruct Hin as [Hin|[<-|Hin]].
      * rewrite (Hd d1 H1 Hin). rewrite !orb_true_r. reflexivity.
      * reflexivity.
      * rewrite (Hd d2 H2 Hin). rewrite !orb_true_r. reflexivity.
  - rewrite Hf. rewrite !orb_true_r. reflexivity.
Qed.

Lemma count_occ_none (l : jsstring) (c : Z) :
  ~ In c l -> count_occ Z.eq_dec l c = O.
Proof. apply count_occ_not_In. Qed.

Lemma replace_all_count (c : Z) (n : nat) :
  csi_alphabet c = false ->
  forall s : jsstring,
    (length s <= n)%nat ->
    count_occ Z.eq_dec (replace_all ansi_rx s) c = count_occ Z.eq_dec s c.
Proof.
  intros Hc. induction n as [|n IH]; intros s Hlen.
  - destruct s; [|simpl in Hlen; lia]. simp replace_all. reflexivity.
  - destruct s as [|x t]; [simp replace_all; reflexivity|].
    simpl in Hlen. rewrite replace_all_cons.
    assert (Hkeep : count_occ Z.eq_dec (x :: replace_all ansi_rx t) c
                    = count_occ Z.eq_dec (x :: t) c).
    { simpl. rewrite (IH t) by lia. reflexivity. }
    destruct (match_at ansi_rx (x :: t)) as [[|k]|] eqn:E;
      [exact Hkeep | | exact Hkeep].
    pose proof (match_at_bound _ _ _ E) as Hk. simpl in Hk.
    apply match_at_ansi_rx_iff in E. destruct E as [_ Hseq].
    rewrite IH by (rewrite length_skipn; lia).
    rewrite <- (firstn_skipn (S k) (x :: t)) at 1.
    rewrite count_occ_app. rewrite (count_occ_none (firstn (S k) (x :: t))).
    + reflexivity.
    + intros Hin. rewrite (csi_sequence_alphabet _ _ Hseq Hin) in Hc.
      discriminate.
Qed.

(** X10.  [removeANSI] keeps every occurrence of a character that is not
    ESC, a bracket, a digit, a semicolon, [m], [K] or a bar: newlines in
    particular are never removed. *)
Theorem removeANSI_keeps_other_characters (s : jsstring) (c : Z) :
  csi_alphabet c = false ->
  count_occ Z.eq_dec (removeANSI s) c = count_occ Z.eq_dec s c.
Proof.
  intros Hc. apply (replace_all_count c (length s) Hc s (le_n _)).
Qed.

Lemma removeANSI_keeps_other_characters_witness :
  count_occ Z.eq_dec (removeANSI red_line) 10
  = count_occ Z.eq_dec red_line 10.
Proof.
  apply removeANSI_keeps_other_characters. reflexivity.
Defined.

(** X11.  A sequence of the removed form after the text counts as well,
    though it is not before the offset: for a text without ESC, the position
    at an offset in the text followed by the sequence is the position in the
    text alone at the offset less the length of the sequence. *)
Theorem offsetToColRow_trailing_sequence_shifts
        (s w : jsstring) (offset maxCols : Z) :
  (forall c, In c s -> c <> ESC) -> csi_sequence w ->
  offsetToColRow (s ++ w) offset maxCols
  = offsetToColRow s (offset - len w) maxCols.
Proof.
  intros Hs Hw. rewrite !offsetToColRow_walk. unfold effective.
  assert (E1 : removeANSI (s ++ w) = s).
  { rewrite (removeANSI_keep _ _ Hs).
    rewrite <- (app_nil_r w), (removeANSI_skip _ _ Hw).
    unfold removeANSI. simp replace_all. apply app_nil_r. }
  assert (E2 : removeANSI s = s).
  { rewrite <- (app_nil_r s) at 1. rewrite (removeANSI_keep _ _ Hs).
    unfold removeANSI. simp replace_all. apply app_nil_r. }
  rewrite E1, E2, len_app. f_equal. f_equal. lia.
Qed.

Lemma offsetToColRow_trailing_sequence_shifts_witness :
  offsetToColRow (js "ab" ++ ([ESC] ++ js "[1;31m")) 2 80
  = offsetToColRow (js "ab") (2 - len ([ESC] ++ js "[1;31m")) 80
  /\ offsetToColRow (js "ab") (2 - len ([ESC] ++ js "[1;31m")) 80
     = {| row := 0; col := 0 |}.
Proof.
  split; [|reflexivity].
  apply offsetToColRow_trailing_sequence_shifts.
  - intros c [<-|[<-|[]]]; discriminate.
  - exact red_sequence.
Defined.

(** ** More on the cursor geometry *)

Lemma firstn_succ_charAt (s : jsstring) (k : nat) :
  firstn (S k) s = firstn k s ++ charAt s k.
Proof.
  revert s. induction k as [|k IH]; intros [|x s]; try reflexivity.
  change (firstn (S (S k)) (x :: s)) with (x :: firstn (S k) s).
  rewrite IH. reflexivity.
Qed.

Lemma charAt_LF (s : jsstring) (k : nat) :
  str_eqb (charAt s k) LF = true <-> In 10 (charAt s k).
Proof.
  rewrite str_eqb_eq. unfold charAt, LF.
  destruct (nth_error s k) as [c|]; simpl.
  - split; [intros [= ->]; auto | intros [->|[]]; reflexivity].
  - split; [discriminate | intros []].
Qed.

Section WalkMore.

Variable s : jsstring.
Variable maxCols : Z.

Lemma walk_row_upper (n i : nat) (p : Position) :
  row (walk n i s maxCols p) <= row p + Z.of_nat n.
Proof.
  revert i p; induction n as [|n IH]; intros i p; simpl walk; [lia|].
  specialize (IH (S i) (advance (charAt s i) maxCols p)).
  pose proof (advance_row maxCols (charAt s i) p). lia.
Qed.

Lemma walk_newlines (n : nat) :
  Z.of_nat (count_occ Z.eq_dec (firstn n s) 10)
  <= row (walk n 0 s maxCols {| row := 0; col := 0 |}).
Proof.
  induction n as [|n IH]; [simpl; lia|].
  rewrite walk_succ, firstn_succ_charAt, count_occ_app.
  pose proof (advance_row maxCols (charAt s n) (walk n 0 s maxCols {| row := 0; col := 0 |}))
    as Hrow.
  destruct (str_eqb (charAt s n) LF) eqn:E.
  - unfold advance. rewrite E. simpl row.
    apply str_eqb_eq in E. rewrite E. simpl. lia.
  - rewrite (count_occ_none (charAt s n)); [lia|].
    intros Hin. apply charAt_LF in Hin. congruence.
Qed.

(** When the row is still 0 no newline has been met and no line has been
    wrapped: the column is the width of the text walked. *)
Lemma walk_row_zero (n : nat) :
  0 <= maxCols ->
  row (walk n 0 s maxCols {| row := 0; col := 0 |}) = 0 ->
  ~ In 10 (firstn n s)
  /\ col (walk n 0 s maxCols {| row := 0; col := 0 |}) = calcWidth (firstn n s).
Proof.
  intros HW. induction n as [|n IH]; [intros _; split; [intros []|reflexivity]|].
  rewrite walk_succ, firstn_succ_charAt.
  pose proof (walk_row s maxCols n 0 {| row := 0; col := 0 |}) as H0. simpl in H0.
  pose proof (advance_row maxCols (charAt s n) (walk n 0 s maxCols {| row := 0; col := 0 |}))
    as Hrow.
  intros Hz. destruct IH as [Hno Hcol]; [lia|].
  revert Hz. unfold advance.
  destruct (str_eqb (charAt s n) LF) eqn:E; [simpl; lia|].
  destruct (Z.gtb_spec (col (walk n 0 s maxCols {| row := 0; col := 0 |})
                        + calcWidth (charAt s n)) maxCols);
    [simpl; lia|].
  simpl. intros _. split.
  - intros Hin. apply in_app_or in Hin. destruct Hin as [Hin|Hin];
      [contradiction|]. apply charAt_LF in Hin. congruence.
  - rewrite Hcol. symmetry. apply calcWidth_app.
Qed.

Lemma walk_fits (n : nat) :
  ~ In 10 (firstn n s) -> calcWidth (firstn n s) <= maxCols ->
  walk n 0 s maxCols {| row := 0; col := 0 |}
  = {| row := 0; col := calcWidth (firstn n s) |}.
Proof.
  induction n as [|n IH]; [intros _ _; reflexivity|].
  rewrite walk_succ, firstn_succ_charAt.
  intros Hno Hfit.
  rewrite (calcWidth_app (firstn n s) (charAt s n)) in *.
  pose proof (calcWidth_charAt_range s n) as Hc.
  rewrite IH.
  - unfold advance.
    destruct (str_eqb (charAt s n) LF) eqn:E.
    + apply charAt_LF in E. destruct Hno. apply in_or_app. right. exact E.
    + simpl.
      destruct (Z.gtb_spec (calcWidth (firstn n s)
                            + calcWidth (charAt s n)) maxCols);
        [lia | reflexivity].
  - intros Hin. apply Hno. apply in_or_app. left. exact Hin.
  - lia.
Qed.

End WalkMore.

(** X12.  As long as the text up to the offset has no newline and its width
    is within the width of the terminal, the cursor is on row 0 and its
    column is the display width of that text. *)
Theorem offsetToColRow_on_first_line (input : jsstring) (offset maxCols : Z) :
  let walked :=
    firstn (Z.to_nat (effective input offset)) (removeANSI input) in
  ~ In 10 walked -> calcWidth walked <= maxCols ->
  offsetToColRow input offset maxCols
  = {| row := 0; col := calcWidth walked |}.
Proof.
  intros walked Hno Hfit. rewrite offsetToColRow_walk.
  apply walk_fits; assumption.
Qed.

Lemma offsetToColRow_on_first_line_witness :
  offsetToColRow (js "a" ++ [CJK] ++ js "b") 2 80
  = {| row := 0; col := 3 |}.
Proof.
  apply (offsetToColRow_on_first_line (js "a" ++ [CJK] ++ js "b") 2 80).
  - vm_compute. intros [H|[H|[]]]; discriminate.
  - vm_compute. discriminate.
Defined.

(** X13.  In a terminal whose width is not negative a text takes one line
    exactly when, the escapes removed, it has no newline and its width is
    within the width of the terminal. *)
Theorem countLines_one_iff (input : jsstring) (maxCols : Z) :
  0 <= maxCols ->
  (countLines input maxCols = 1
   <-> ~ In 10 (removeANSI input)
       /\ calcWidth (removeANSI input) <= maxCols).
Proof.
  intros HW. unfold countLines. rewrite offsetToColRow_walk.
  set (s := removeANSI input).
  assert (He : Z.to_nat (effective input (len input)) = length s)
    by (unfold effective, len; fold s; lia).
  rewrite He. split.
  - intros H.
    destruct (walk_row_zero s maxCols (length s) HW) as [Hno Hcol]; [lia|].
    rewrite firstn_all in Hno, Hcol. split; [exact Hno|].
    rewrite <- Hcol. apply walk_col; simpl; lia.
  - intros [Hno Hfit].
    rewrite walk_fits; rewrite ?firstn_all; try assumption. reflexivity.
Qed.

Lemma countLines_one_iff_witness :
  countLines red_text 3 = 1 /\ countLines red_text 2 <> 1.
Proof.
  assert (H3 : 0 <= 3) by lia. assert (H2 : 0 <= 2) by lia.
  split.
  - apply (countLines_one_iff red_text 3 H3). split.
    + vm_compute. intros [H|[H|[H|[]]]]; discriminate.
    + vm_compute. discriminate.
  - intros H. apply (countLines_one_iff red_text 2 H2) in H.
    destruct H as [_ H]. vm_compute in H. apply H. reflexivity.
Defined.

(** X14.  The row never goes back as the offset grows, it is at least 0
    and at most the number of characters walked; so the number of lines is
    at most the length of the text plus one. *)
Theorem offsetToColRow_row_monotone
        (input : jsstring) (offset offset' maxCols : Z) :
  (offset <= offset' ->
   row (offsetToColRow input offset maxCols)
   <= row (offsetToColRow input offset' maxCols))
  /\ 0 <= row (offsetToColRow input offset maxCols)
       <= Z.max 0 (effective input offset)
  /\ countLines input maxCols <= len input + 1.
Proof.
  rewrite !offsetToColRow_walk. split; [|split].
  - intros Hle.
    replace (Z.to_nat (effective input offset'))
      with (Z.to_nat (effective input offset)
            + (Z.to_nat (effective input offset')
               - Z.to_nat (effective input offset)))%nat
      by (unfold effective; lia).
    rewrite walk_add. apply walk_row.
  - pose proof (walk_row (removeANSI input) maxCols
                  (Z.to_nat (effective input offset)) 0
                  {| row := 0; col := 0 |}) as Hlo.
    pose proof (walk_row_upper (removeANSI input) maxCols
                  (Z.to_nat (effective input offset)) 0
                  {| row := 0; col := 0 |}) as Hhi.
    simpl in Hlo, Hhi. lia.
  - unfold countLines. rewrite offsetToColRow_walk.
    pose proof (walk_row_upper (removeANSI input) maxCols
                  (Z.to_nat (effective input (len input))) 0
                  {| row := 0; col := 0 |}) as Hhi.
    pose proof (replace_all_length ansi_rx _ input (le_n _)) as Hlen.
    fold (removeANSI input) in Hlen.
    simpl in Hhi. unfold effective, len in *. lia.
Qed.

Lemma offsetToColRow_row_monotone_witness :
  row (offsetToColRow red_line 3 80) <= row (offsetToColRow red_line 20 80).
Proof.
  apply (proj1 (offsetToColRow_row_monotone red_line 3 20 80)). lia.
Defined.

(** X15.  Every newline of the text starts a new line, whatever the width:
    the number of lines is at least the number of newlines plus one. *)
Theorem countLines_newlines (input : jsstring) (maxCols : Z) :
  Z.of_nat (count_occ Z.eq_dec input 10) + 1 <= countLines input maxCols.
Proof.
  unfold countLines. rewrite offsetToColRow_walk.
  set (s := removeANSI input).
  assert (He : Z.to_nat (effective input (len input)) = length s)
    by (unfold effective, len; fold s; lia).
  rewrite He.
  pose proof (walk_newlines s maxCols (length s)) as H.
  rewrite firstn_all in H.
  assert (Hc : count_occ Z.eq_dec s 10 = count_occ Z.eq_dec input 10)
    by (apply (replace_all_count 10 (length input) eq_refl input (le_n _))).
  rewrite Hc in H. lia.
Qed.

(** ** More on the word boundaries *)

Lemma exec_loop_lengths (r : regex) (n : nat) :
  forall (s : jsstring) (pos : Z),
    (length s <= n)%nat ->
    Forall (fun m : Z * Z => 0 < snd m) (exec_loop r pos s).
Proof.
  induction n as [|n IH]; intros s pos Hlen.
  - destruct s; [|simpl in Hlen; lia]. simp exec_loop. constructor.
  - destruct s as [|c t]; [simp exec_loop; constructor|].
    simpl in Hlen. rewrite exec_loop_cons.
    destruct (match_at r (c :: t)) as [[|k]|]; try (apply IH; lia).
    constructor; [simpl; lia|].
    apply IH. rewrite length_skipn. lia.
Qed.

Lemma Forall2_map_same {A : Type} (R : Z -> Z -> Prop) (f g : A -> Z)
      (l : list A) :
  Forall (fun x => R (f x) (g x)) l -> Forall2 R (map f l) (map g l).
Proof.
  induction 1; simpl; constructor; assumption.
Qed.

(** X16.  The two lists of [wordBoundaries] go together: they have the
    same length, each start is below the end at the same place, every
    boundary is an index of the text or its length, and both lists are
    strictly increasing. *)
Theorem wordBoundaries_paired (input : jsstring) :
  let starts := wordBoundaries input true in
  let ends := wordBoundaries input false in
  length starts = length ends
  /\ Forall2 Z.lt starts ends
  /\ StronglySorted Z.lt starts
  /\ StronglySorted Z.lt ends
  /\ Forall (fun x => 0 <= x < len input) starts
  /\ Forall (fun x => 0 < x <= len input) ends.
Proof.
  intros starts ends.
  assert (H2 : Forall2 Z.lt starts ends).
  { unfold starts, ends, wordBoundaries.
    apply (Forall2_map_same Z.lt).
    eapply Forall_impl;
      [|apply (exec_loop_lengths word_rx _ input 0 (le_n _))].
    simpl. intros m Hm. lia. }
  split; [exact (Forall2_length H2)|]. split; [exact H2|].
  split; [|split; [|split]].
  - unfold starts. rewrite wordBoundaries_left. apply word_starts_sorted.
  - unfold ends. rewrite wordBoundaries_right. apply word_ends_sorted.
  - apply Forall_forall. intros x Hx.
    apply wordBoundaries_left_In in Hx. apply is_word_start_range. exact Hx.
  - apply Forall_forall. intros x Hx.
    apply wordBoundaries_right_In in Hx. apply is_word_end_range. exact Hx.
Qed.

Lemma closestLeftBoundary_range (input : jsstring) (offset : Z) :
  0 <= closestLeftBoundary input offset <= len input.
Proof.
  assert (Hlen : 0 <= len input) by (unfold len; lia).
  destruct (closestLeftBoundary_cases input offset) as [(Hs & _)|[-> _]];
    [|lia].
  apply is_word_start_range in Hs. lia.
Qed.

Lemma closestRightBoundary_range (input : jsstring) (offset : Z) :
  0 <= closestRightBoundary input offset <= len input.
Proof.
  assert (Hlen : 0 <= len input) by (unfold len; lia).
  destruct (closestRightBoundary_cases input offset) as [(He & _)|[-> _]];
    [|lia].
  apply is_word_end_range in He. lia.
Qed.

(** X17.  A jump to the closest boundary moves the cursor: the left
    boundary is below every positive offset and the right boundary above
    every offset below the length of the text; an offset that is not
    positive gives 0 and an offset from the length on gives the length; and
    both boundaries grow with the offset. *)
Theorem closest_boundaries_progress (input : jsstring) (offset offset' : Z) :
  (0 < offset -> closestLeftBoundary input offset < offset)
  /\ (offset < len input -> offset < closestRightBoundary input offset)
  /\ (offset <= 0 -> closestLeftBoundary input offset = 0)
  /\ (len input <= offset -> closestRightBoundary input offset = len input)
  /\ (offset <= offset' ->
      closestLeftBoundary input offset <= closestLeftBoundary input offset'
      /\ closestRightBoundary input offset
         <= closestRightBoundary input offset').
Proof.
  pose proof (closestLeftBoundary_cases input offset) as HL.
  pose proof (closestRightBoundary_cases input offset) as HR.
  pose proof (closestLeftBoundary_cases input offset') as HL'.
  pose proof (closestRightBoundary_cases input offset') as HR'.
  pose proof (closestLeftBoundary_range input offset) as RL.
  pose proof (closestRightBoundary_range input offset) as RR.
  pose proof (closestLeftBoundary_range input offset') as RL'.
  pose proof (closestRightBoundary_range input offset') as RR'.
  cbv zeta in HL, HR, HL', HR'.
  split; [|split; [|split; [|split]]].
  - intros Hpos. destruct HL as [(_ & Hlt & _)|[-> _]]; lia.
  - intros Hlt. destruct HR as [(_ & Hgt & _)|[-> _]]; lia.
  - intros Hle. destruct HL as [(Hs & Hlt & _)|[-> _]]; [|reflexivity].
    apply is_word_start_range in Hs. lia.
  - intros Hle. destruct HR as [(He & Hgt & _)|[-> _]]; [|reflexivity].
    apply is_word_end_range in He. lia.
  - intros Hle. split.
    + destruct HL as [(Hs & Hlt & _)|[-> _]]; [|lia].
      destruct HL' as [(_ & _ & Hmax)|[_ Hnone]].
      * apply Hmax; [exact Hs | lia].
      * specialize (Hnone _ Hs). lia.
    + destruct HR' as [(He & Hgt & _)|[-> _]]; [|lia].
      destruct HR as [(_ & _ & Hmin)|[_ Hnone]].
      * apply Hmin; [exact He | lia].
      * specialize (Hnone _ He). lia.
Qed.

Lemma closest_boundaries_progress_witness :
  closestLeftBoundary hello_world 8 < 8
  /\ 8 < closestRightBoundary hello_world 8
  /\ closestLeftBoundary hello_world 3 <= closestLeftBoundary hello_world 8.
Proof.
  destruct (closest_boundaries_progress hello_world 8 8)
    as (HL & HR & _).
  destruct (closest_boundaries_progress hello_world 3 8)
    as (_ & _ & _ & _ & Hm).
  split; [apply HL; lia|]. split; [apply HR; vm_compute; reflexivity|].
  apply Hm. lia.
Defined.

(** ** More on the shared fragment *)

Lemma startsWith_antisym (s t : jsstring) :
  startsWith s t = true -> startsWith t s = true -> s = t.
Proof.
  intros H1 H2. apply startsWith_same_length; [exact H1|].
  apply startsWith_length. exact H2.
Qed.

Lemma getSharedFragment_lcp (prefix : jsstring) (candidates : list jsstring) :
  candidates <> [] ->
  (forall c, In c candidates -> startsWith c prefix = true) ->
  exists p,
    getSharedFragment prefix candidates = Str p
    /\ startsWith p prefix = true
    /\ (forall c, In c candidates -> startsWith c p = true)
    /\ (forall q, (forall c, In c candidates -> startsWith c q = true) ->
                  startsWith p q = true).
Proof.
  intros Hne Hall. destruct candidates as [|first rest]; [contradiction|].
  exact (getSharedFragment_longest first rest _ prefix eq_refl Hall).
Qed.

Lemma check_candidates_some (oldFragment fragment : jsstring)
      (candidates : list jsstring) (r : shared) :
  check_candidates oldFragment fragment candidates = Some r ->
  r = Null \/ r = Str oldFragment.
Proof.
  induction candidates as [|c cs IH]; simpl; [discriminate|].
  destruct (startsWith c oldFragment); simpl; [|intros [= <-]; auto].
  destruct (startsWith c fragment); simpl; [exact IH | intros [= <-]; auto].
Qed.

Lemma check_candidates_none (oldFragment fragment : jsstring)
      (candidates : list jsstring) :
  check_candidates oldFragment fragment candidates = None ->
  forall c, In c candidates -> startsWith c fragment = true.
Proof.
  induction candidates as [|c cs IH]; simpl; [intros _ c []|].
  destruct (startsWith c oldFragment); simpl; [|discriminate].
  destruct (startsWith c fragment) eqn:E; simpl; [|discriminate].
  intros H d [<-|Hd]; [exact E | exact (IH H d Hd)].
Qed.

(** X18.  With one candidate that starts with the prefix the completion is
    the candidate itself. *)
Theorem getSharedFragment_single (prefix c : jsstring) :
  startsWith c prefix = true -> getSharedFragment prefix [c] = Str c.
Proof.
  intros H.
  destruct (getSharedFragment_lcp prefix [c]) as (p & Hp & _ & Hcom & Hmax).
  - discriminate.
  - intros d [<-|[]]. exact H.
  - rewrite Hp. f_equal. apply startsWith_antisym.
    + apply Hmax. intros d [<-|[]]. apply startsWith_refl.
    + apply Hcom. left. reflexivity.
Qed.

Lemma getSharedFragment_single_witness :
  getSharedFragment (js "gr") [js "grep"] = Str (js "grep").
Proof. apply getSharedFragment_single. reflexivity. Defined.

(** X19.  When every candidate starts with the prefix, completing again
    from the result gives the result: nothing more is shared. *)
Theorem getSharedFragment_idempotent
        (prefix p : jsstring) (candidates : list jsstring) :
  candidates <> [] ->
  (forall c, In c candidates -> startsWith c prefix = true) ->
  getSharedFragment prefix candidates = Str p ->
  getSharedFragment p candidates = Str p.
Proof.
  intros Hne Hall Hp.
  destruct (getSharedFragment_lcp prefix candidates Hne Hall)
    as (p1 & Hp1 & _ & Hcom & Hmax).
  rewrite Hp in Hp1. injection Hp1 as <-.
  destruct (getSharedFragment_lcp p candidates Hne Hcom)
    as (p2 & Hp2 & Hpre & Hcom2 & _).
  rewrite Hp2. f_equal. apply startsWith_antisym; [exact Hpre|].
  apply Hmax. exact Hcom2.
Qed.

Lemma getSharedFragment_idempotent_witness :
  getSharedFragment (js "g") [js "grep"; js "great"] = Str (js "gre")
  /\ getSharedFragment (js "gre") [js "grep"; js "great"] = Str (js "gre").
Proof.
  split; [reflexivity|].
  apply (getSharedFragment_idempotent (js "g")).
  - discriminate.
  - intros c [<-|[<-|[]]]; reflexivity.
  - reflexivity.
Defined.

(** X20.  When every candidate starts with the prefix the result does not
    depend on the order of the candidates. *)
Theorem getSharedFragment_order
        (prefix : jsstring) (candidates candidates' : list jsstring) :
  Permutation candidates candidates' ->
  candidates <> [] ->
  (forall c, In c candidates -> startsWith c prefix = true) ->
  getSharedFragment prefix candidates = getSharedFragment prefix candidates'.
Proof.
  intros Hperm Hne Hall.
  assert (Hne' : candidates' <> []).
  { intros ->. apply Permutation_sym, Permutation_nil in Hperm.
    contradiction. }
  assert (Hall' : forall c, In c candidates' -> startsWith c prefix = true).
  { intros c Hc. apply Hall.
    apply (Permutation_in c (Permutation_sym Hperm) Hc). }
  destruct (getSharedFragment_lcp prefix candidates Hne Hall)
    as (p & -> & _ & Hcom & Hmax).
  destruct (getSharedFragment_lcp prefix candidates' Hne' Hall')
    as (p' & -> & _ & Hcom' & Hmax').
  f_equal. apply startsWith_antisym.
  - apply Hmax. intros c Hc. apply Hcom'.
    apply (Permutation_in c Hperm Hc).
  - apply Hmax'. intros c Hc. apply Hcom.
    apply (Permutation_in c (Permutation_sym Hperm) Hc).
Qed.

Lemma getSharedFragment_order_witness :
  getSharedFragment (js "g") [js "grep"; js "great"]
  = getSharedFragment (js "g") [js "great"; js "grep"].
Proof.
  apply getSharedFragment_order.
  - apply perm_swap.
  - discriminate.
  - intros c [<-|[<-|[]]]; reflexivity.
Defined.

(** X21.  [getSharedFragment] fails only on an empty list of candidates,
    where [candidates[0]] is undefined.  When it returns a string, the
    string starts with the fragment given; it is that fragment itself, or
    a longer one that every candidate starts with. *)
Theorem getSharedFragment_result
        (fragment : jsstring) (candidates : list jsstring) :
  (getSharedFragment fragment candidates = TypeError <-> candidates = [])
  /\ (forall p,
         getSharedFragment fragment candidates = Str p ->
         startsWith p fragment = true
         /\ (p = fragment
             \/ ((length fragment < length p)%nat
                 /\ forall c, In c candidates -> startsWith c p = true))).
Proof.
  destruct candidates as [|first rest].
  { simp getSharedFragment. split; [tauto | discriminate]. }
  rewrite getSharedFragment_step.
  destruct (Nat.leb_spec (length first) (length fragment)) as [Hle|Hlt].
  { split; [split; discriminate|].
    intros p [= <-]. split; [apply startsWith_refl | auto]. }
  destruct (check_candidates fragment (extend fragment first) (first :: rest))
    as [r|] eqn:E.
  - destruct (check_candidates_some _ _ _ _ E) as [-> | ->].
    + split; [split; discriminate | discriminate].
    + split; [split; discriminate|].
      intros p [= <-]. split; [apply startsWith_refl | auto].
  - pose proof (check_candidates_none _ _ _ E) as Hall.
    destruct (getSharedFragment_lcp (extend fragment first) (first :: rest))
      as (q & Hq & Hpre & Hcom & _); [discriminate | exact Hall |].
    rewrite Hq. split; [split; discriminate|].
    intros p [= <-]. split.
    + apply (startsWith_trans _ _ _ Hpre), extend_startsWith.
    + right. split; [|exact Hcom].
      apply startsWith_length in Hpre.
      rewrite (extend_length _ _ Hlt) in Hpre. lia.
Qed.

(** ** More on incomplete input *)

Lemma trimStart_nil_iff (s : jsstring) :
  trimStart s = [] <-> forallb is_space s = true.
Proof.
  induction s as [|c t IH]; simpl; [tauto|].
  destruct (is_space c); simpl; [exact IH|].
  split; discriminate.
Qed.

Lemma trimStart_head (s : jsstring) (c : Z) (t : jsstring) :
  trimStart s = c :: t -> is_space c = false.
Proof.
  induction s as [|x s IH]; simpl; [discriminate|].
  destruct (is_space x) eqn:E; [exact IH|].
  intros [= <- _]. exact E.
Qed.

(** A text trims to the empty string exactly when it is white space
    only. *)
Lemma trim_nil_iff (s : jsstring) :
  trim s = [] <-> forallb is_space s = true.
Proof.
  unfold trim. split.
  - intros H.
    assert (H1 : trimStart (rev (trimStart s)) = []).
    { destruct (trimStart (rev (trimStart s))) as [|x l]; [reflexivity|].
      simpl in H. destruct (rev l); discriminate. }
    apply trimStart_nil_iff in H1.
    destruct (trimStart s) as [|c t] eqn:E.
    + apply trimStart_nil_iff. exact E.
    + pose proof (trimStart_head _ _ _ E) as Hc.
      rewrite forallb_forall in H1.
      rewrite (H1 c) in Hc; [discriminate|].
      apply in_rev. rewrite rev_involutive. left. reflexivity.
  - intros H. apply trimStart_nil_iff in H. rewrite H. reflexivity.
Qed.

Lemma trim_not_nil (s : jsstring) (c : Z) :
  In c s -> is_space c = false -> str_eqb (trim s) [] = false.
Proof.
  intros Hin Hc. destruct (str_eqb (trim s) []) eqn:E; [|reflexivity].
  apply str_eqb_eq, trim_nil_iff in E. rewrite forallb_forall in E.
  rewrite (E c Hin) in Hc. discriminate.
Qed.

Lemma odd_count_In (s : jsstring) (c : Z) :
  Nat.odd (count_occ Z.eq_dec s c) = true -> In c s.
Proof.
  intros H. apply (count_occ_In Z.eq_dec).
  destruct (count_occ Z.eq_dec s c); [discriminate | lia].
Qed.

(** X22.  An input of white space only is never incomplete, and an input
    with an odd number of single quotes, or of double quotes, always is. *)
Theorem isIncompleteInput_quotes (input : jsstring) :
  (forallb is_space input = true -> isIncompleteInput input = false)
  /\ (Nat.odd (count_occ Z.eq_dec input 39) = true
      \/ Nat.odd (count_occ Z.eq_dec input 34) = true ->
      isIncompleteInput input = true).
Proof.
  unfold isIncompleteInput, single_quote_rx, double_quote_rx.
  rewrite !odd_mod2, !match_global_lit. split.
  - intros H. apply trim_nil_iff in H. rewrite H. reflexivity.
  - intros H.
    assert (Hne : str_eqb (trim input) [] = false).
    { destruct H as [H|H]; apply odd_count_In in H;
        apply (trim_not_nil _ _ H); reflexivity. }
    rewrite Hne. destruct H as [-> | ->]; [reflexivity|].
    destruct (Nat.odd (count_occ Z.eq_dec input 39)); reflexivity.
Qed.

Lemma isIncompleteInput_quotes_witness :
  isIncompleteInput (js "   ") = false
  /\ isIncompleteInput (js "echo 'a b") = true.
Proof.
  split.
  - apply (proj1 (isIncompleteInput_quotes (js "   "))). reflexivity.
  - apply (proj2 (isIncompleteInput_quotes (js "echo 'a b"))).
    left. reflexivity.
Defined.

Lemma match_at_operator_cases (x : Z) (t : jsstring) :
  match_at operator_rx (x :: t)
  = if x =? 124 then
      match t with
      | y :: _ => if y =? 124 then Some 2%nat else Some 1%nat
      | [] => Some 1%nat
      end
    else if x =? 38 then
      match t with
      | y :: _ => if y =? 38 then Some 2%nat else None
      | [] => None
      end
    else None.
Proof.
  unfold match_at, operator_rx. cbn [rmatch].
  assert (L1 : (length (x :: t) - length t)%nat = 1%nat)
    by (change (length (x :: t)) with (S (length t)); lia).
  destruct (x =? 124).
  - destruct t as [|y u]; [rewrite L1; reflexivity|].
    destruct (y =? 124).
    + f_equal. change (length (x :: y :: u)) with (S (S (length u))). lia.
    + rewrite L1. reflexivity.
  - destruct (x =? 38); [|reflexivity].
    destruct t as [|y u]; [reflexivity|].
    destruct (y =? 38); [|reflexivity].
    f_equal. change (length (x :: y :: u)) with (S (S (length u))). lia.
Qed.

Lemma split_captured_nonempty (r : regex) (cur s : jsstring) :
  split_captured r cur s <> [].
Proof.
  destruct (split_captured_last r (length s) s cur (le_n _))
    as (init & seg & -> & _).
  destruct init; discriminate.
Qed.

Lemma last_cons2 {A : Type} (a b : A) (l : list A) (d : A) :
  l <> [] -> last (a :: b :: l) d = last l d.
Proof. destruct l; [contradiction | reflexivity]. Qed.

(** A text without a bar and without an ampersand is one segment. *)
Lemma split_captured_plain (ws : jsstring) :
  (forall c, In c ws -> c <> 124 /\ c <> 38) ->
  forall cur, split_captured operator_rx cur ws = [rev cur ++ ws].
Proof.
  induction ws as [|c ws IH]; intros H cur.
  - simp split_captured. rewrite app_nil_r. reflexivity.
  - rewrite split_captured_cons, match_at_operator_cases.
    destruct (H c (or_introl eq_refl)) as [H1 H2].
    destruct (Z.eqb_spec c 124); [contradiction|].
    destruct (Z.eqb_spec c 38); [contradiction|].
    rewrite IH by (intros d Hd; apply H; right; exact Hd).
    simpl. rewrite <- app_assoc. reflexivity.
Qed.

Lemma split_captured_after_pipe (ws : jsstring) (n : nat) :
  (forall c, In c ws -> c <> 124 /\ c <> 38) ->
  forall s cur,
    (length s <= n)%nat ->
    last (split_captured operator_rx cur (s ++ 124 :: ws)) [] = ws.
Proof.
  intros Hws.
  assert (Hplain : last (split_captured operator_rx [] ws) [] = ws)
    by (rewrite (split_captured_plain ws Hws); reflexivity).
  induction n as [|n IH]; intros s cur Hlen.
  - destruct s; [|simpl in Hlen; lia]. simpl app.
    rewrite split_captured_cons, match_at_operator_cases.
    change (124 =? 124) with true. cbv beta iota.
    destruct ws as [|y u].
    + simpl skipn.
      rewrite last_cons2 by apply split_captured_nonempty. exact Hplain.
    + destruct (Hws y (or_introl eq_refl)) as [Hy _].
      destruct (Z.eqb_spec y 124); [contradiction|]. simpl skipn.
      rewrite last_cons2 by apply split_captured_nonempty. exact Hplain.
  - destruct s as [|x t]; [apply (IH [] cur); simpl; lia|].
    simpl in Hlen. change ((x :: t) ++ 124 :: ws) with (x :: (t ++ 124 :: ws)).
    rewrite split_captured_cons, match_at_operator_cases.
    destruct (x =? 124).
    + destruct t as [|y t'].
      * simpl app. cbv beta iota. change (124 =? 124) with true.
        cbv beta iota. simpl skipn.
        rewrite last_cons2 by apply split_captured_nonempty. exact Hplain.
      * simpl app. cbv beta iota. destruct (y =? 124); simpl skipn;
          rewrite last_cons2 by apply split_captured_nonempty.
        -- apply IH. simpl in Hlen. lia.
        -- apply (IH (y :: t')). lia.
    + destruct (x =? 38); [|apply IH; lia].
      destruct t as [|y t']; simpl app.
      * cbv beta iota. change (124 =? 38) with false. cbv beta iota.
        apply (IH [] (x :: cur)). simpl. lia.
      * cbv beta iota. destruct (y =? 38).
        -- simpl skipn.
           rewrite last_cons2 by apply split_captured_nonempty.
           apply IH. simpl in Hlen. lia.
        -- apply (IH (y :: t')). lia.
Qed.

Lemma split_captured_after_and (ws : jsstring) (n : nat) :
  (forall c, In c ws -> c <> 124 /\ c <> 38) ->
  forall s cur,
    (length s <= n)%nat ->
    (forall pre, s <> pre ++ [38]) ->
    last (split_captured operator_rx cur (s ++ 38 :: 38 :: ws)) [] = ws.
Proof.
  intros Hws.
  assert (Hplain : last (split_captured operator_rx [] ws) [] = ws)
    by (rewrite (split_captured_plain ws Hws); reflexivity).
  assert (Hbase : forall cur,
             last (split_captured operator_rx cur (38 :: 38 :: ws)) [] = ws).
  { intros cur. rewrite split_captured_cons, match_at_operator_cases.
    change (38 =? 124) with false. change (38 =? 38) with true.
    cbv beta iota. simpl skipn.
    rewrite last_cons2 by apply split_captured_nonempty. exact Hplain. }
  induction n as [|n IH]; intros s cur Hlen Hend.
  - destruct s; [|simpl in Hlen; lia]. apply Hbase.
  - destruct s as [|x t]; [apply Hbase|].
    simpl in Hlen.
    assert (Ht : forall pre, t <> pre ++ [38])
      by (intros pre ->; apply (Hend (x :: pre)); reflexivity).
    change ((x :: t) ++ 38 :: 38 :: ws) with (x :: (t ++ 38 :: 38 :: ws)).
    rewrite split_captured_cons, match_at_operator_cases.
    destruct (x =? 124).
    + destruct t as [|y t'].
      * simpl app. cbv beta iota. change (38 =? 124) with false.
        cbv beta iota. simpl skipn.
        rewrite last_cons2 by apply split_captured_nonempty. apply Hbase.
      * assert (Ht' : forall pre, t' <> pre ++ [38])
          by (intros pre ->; apply (Ht (y :: pre)); reflexivity).
        simpl app. cbv beta iota. destruct (y =? 124); simpl skipn;
          rewrite last_cons2 by apply split_captured_nonempty.
        -- apply IH; [simpl in Hlen; lia | exact Ht'].
        -- apply (IH (y :: t')); [lia | exact Ht].
    + destruct (Z.eqb_spec x 38) as [->|Hx]; [|apply IH; [lia | exact Ht]].
      destruct t as [|y t'].
      * destruct (Hend []). reflexivity.
      * assert (Ht' : forall pre, t' <> pre ++ [38])
          by (intros pre ->; apply (Ht (y :: pre)); reflexivity).
        simpl app. cbv beta iota. destruct (y =? 38).
        -- simpl skipn.
           rewrite last_cons2 by apply split_captured_nonempty.
           apply IH; [simpl in Hlen; lia | exact Ht'].
        -- apply (IH (y :: t')); [lia | exact Ht].
Qed.

Lemma is_space_not_operator (ws : jsstring) :
  forallb is_space ws = true ->
  forall c, In c ws -> c <> 124 /\ c <> 38.
Proof.
  intros H c Hc. rewrite forallb_forall in H. specialize (H c Hc).
  split; intros ->; discriminate.
Qed.

Lemma isIncompleteInput_dangling (input : jsstring) :
  str_eqb (trim input) [] = false ->
  trim (last (split_captured operator_rx [] input) []) = [] ->
  isIncompleteInput input = true.
Proof.
  intros Hne Ht. unfold isIncompleteInput. rewrite Hne, Ht.
  destruct (negb _); [reflexivity|]. destruct (negb _); reflexivity.
Qed.

Lemma endsWith_single (s : jsstring) (c : Z) :
  endsWith s [c] = false -> forall pre, s <> pre ++ [c].
Proof.
  intros H pre ->. unfold endsWith in H. rewrite rev_app_distr in H.
  simpl in H. rewrite Z.eqb_refl in H. discriminate.
Qed.

(** X23.  An input that ends with a bar, followed or not by white space, is
    incomplete: this covers the pipe and the operator of two bars.  An
    input that ends with two ampersands, followed or not by white space, is
    incomplete when the text before them does not end with an ampersand;
    after three ampersands the last one is left over and the input counts
    as complete. *)
Theorem isIncompleteInput_trailing_operator (s ws : jsstring) :
  forallb is_space ws = true ->
  isIncompleteInput (s ++ js "|" ++ ws) = true
  /\ (endsWith s (js "&") = false ->
      isIncompleteInput (s ++ js "&&" ++ ws) = true)
  /\ isIncompleteInput (js "a &&&") = false.
Proof.
  intros Hws. pose proof (is_space_not_operator ws Hws) as Hop.
  assert (Htrim : trim ws = []) by (apply trim_nil_iff; exact Hws).
  split; [|split; [|reflexivity]].
  - apply isIncompleteInput_dangling.
    + apply (trim_not_nil _ 124); [|reflexivity].
      apply in_or_app. right. left. reflexivity.
    + change (js "|" ++ ws) with (124 :: ws).
      rewrite (split_captured_after_pipe ws (length s) Hop s [] (le_n _)).
      exact Htrim.
  - intros Hend. apply isIncompleteInput_dangling.
    + apply (trim_not_nil _ 38); [|reflexivity].
      apply in_or_app. right. left. reflexivity.
    + change (js "&&" ++ ws) with (38 :: 38 :: ws).
      rewrite (split_captured_after_and ws (length s) Hop s [] (le_n _)
                 (endsWith_single s 38 Hend)).
      exact Htrim.
Qed.

Lemma isIncompleteInput_trailing_operator_witness :
  isIncompleteInput (js "ls -l" ++ js "|" ++ js "  ") = true
  /\ isIncompleteInput (js "make " ++ js "&&" ++ js " ") = true.
Proof.
  split.
  - apply (proj1 (isIncompleteInput_trailing_operator
                    (js "ls -l") (js "  ") eq_refl)).
  - apply (proj1 (proj2 (isIncompleteInput_trailing_operator
                           (js "make ") (js " ") eq_refl))).
    reflexivity.
Defined.

(** ** The lists of boundaries and plain text *)

(** X24.  [wordBoundaries] lists exactly the indices where a maximal run
    of letters, digits and underscores starts, or, on the right side, the
    indices where one ends; a text without such a character has no
    boundary. *)
Theorem wordBoundaries_exact (input : jsstring) :
  (forall x, In x (wordBoundaries input true)
             <-> is_word_start input x = true)
  /\ (forall x, In x (wordBoundaries input false)
                <-> is_word_end input x = true)
  /\ (forallb (fun c => negb (is_word c)) input = true ->
      wordBoundaries input true = [] /\ wordBoundaries input false = []).
Proof.
  split; [apply wordBoundaries_left_In|].
  split; [apply wordBoundaries_right_In|].
  intros H. rewrite wordBoundaries_left, wordBoundaries_right.
  generalize 0 as pos. induction input as [|c t IH]; intros pos;
    [split; reflexivity|].
  simpl in H. apply andb_true_iff in H. destruct H as [Hc Ht].
  apply negb_true_iff in Hc. simpl. rewrite Hc. simpl.
  apply IH. exact Ht.
Qed.

Lemma wordBoundaries_exact_witness :
  wordBoundaries (js " -- ") true = []
  /\ wordBoundaries (js " -- ") false = [].
Proof.
  apply (proj2 (proj2 (wordBoundaries_exact (js " -- ")))). reflexivity.
Defined.

Lemma removeANSI_plain (s : jsstring) :
  (forall c, In c s -> c <> ESC) -> removeANSI s = s.
Proof.
  intros H. unfold removeANSI.
  apply replace_all_fixed, rx_test_ansi_rx_no_ESC, H.
Qed.

Lemma walk_plain (s : jsstring) (maxCols : Z) (n : nat) :
  0 <= maxCols -> (n <= length s)%nat ->
  (forall c, In c s -> char_width c = 1 /\ c <> 10) ->
  walk n 0 s maxCols {| row := 0; col := 0 |}
  = {| row := Z.of_nat n / (maxCols + 1);
       col := Z.of_nat n mod (maxCols + 1) |}.
Proof.
  intros HW. induction n as [|n IH]; intros Hn Hs.
  - simpl. rewrite Z.div_0_l, Z.mod_0_l by lia. reflexivity.
  - rewrite walk_succ, IH by (try lia; exact Hs).
    unfold charAt. destruct (nth_error s n) as [c|] eqn:E.
    2:{ apply nth_error_None in E. lia. }
    destruct (Hs c (nth_error_In _ _ E)) as [Hw Hc].
    unfold advance.
    destruct (str_eqb [c] LF) eqn:El;
      [apply str_eqb_eq in El; injection El as ->; contradiction|].
    rewrite calcWidth_single, Hw. cbn [row col].
    set (k := Z.of_nat n) in *.
    replace (Z.of_nat (S n)) with (k + 1) by lia.
    assert (Hk : 0 <= k) by lia.
    pose proof (Z.div_mod k (maxCols + 1) ltac:(lia)) as Hdm.
    pose proof (Z.mod_pos_bound k (maxCols + 1) ltac:(lia)) as Hm.
    destruct (Z.gtb_spec (k mod (maxCols + 1) + 1) maxCols) as [Hgt|Hle].
    + assert (Hq : k + 1 = (k / (maxCols + 1) + 1) * (maxCols + 1)) by nia.
      f_equal.
      * rewrite Hq. rewrite Z.div_mul by lia. reflexivity.
      * rewrite Hq. rewrite Z.mod_mul by lia. reflexivity.
    + assert (Hq : k + 1 = (maxCols + 1) * (k / (maxCols + 1))
                           + (k mod (maxCols + 1) + 1)) by lia.
      f_equal.
      * apply (Z.div_unique_pos (k + 1) (maxCols + 1)
                 (k / (maxCols + 1)) (k mod (maxCols + 1) + 1));
          [lia | exact Hq].
      * apply (Z.mod_unique_pos (k + 1) (maxCols + 1)
                 (k / (maxCols + 1)) (k mod (maxCols + 1) + 1));
          [lia | exact Hq].
Qed.

(** X25.  In a text of characters of width 1, without newline and without
    ESC, a row takes [maxCols + 1] characters: the character that goes past
    the width is the one that wraps and it leaves the column at 0.  So the
    position at an offset within the text is the quotient and the remainder
    of the offset by [maxCols + 1]. *)
Theorem offsetToColRow_plain_text (input : jsstring) (offset maxCols : Z) :
  0 <= maxCols -> 0 <= offset <= len input ->
  (forall c, In c input -> calcWidth [c] = 1 /\ c <> 10 /\ c <> ESC) ->
  offsetToColRow input offset maxCols
  = {| row := offset / (maxCols + 1); col := offset mod (maxCols + 1) |}
  /\ countLines input maxCols = len input / (maxCols + 1) + 1.
Proof.
  intros HW Ho Hs.
  assert (Hplain : removeANSI input = input)
    by (apply removeANSI_plain; intros c Hc; apply (Hs c Hc)).
  assert (Hw : forall c, In c input -> char_width c = 1 /\ c <> 10).
  { intros c Hc. destruct (Hs c Hc) as (H1 & H2 & _).
    rewrite calcWidth_single in H1. auto. }
  assert (H : forall o, 0 <= o <= len input ->
              offsetToColRow input o maxCols
              = {| row := o / (maxCols + 1); col := o mod (maxCols + 1) |}).
  { intros o Hr. rewrite offsetToColRow_walk. unfold effective.
    rewrite Hplain. replace (o - (len input - len input)) with o by lia.
    rewrite walk_plain; [|exact HW | unfold len in Hr; lia | exact Hw].
    rewrite Z2Nat.id by lia. reflexivity. }
  split; [apply H; exact Ho|].
  unfold countLines. rewrite H by (unfold len; lia). reflexivity.
Qed.

Lemma offsetToColRow_plain_text_witness :
  offsetToColRow (js "abcdefgh") 7 3 = {| row := 7 / (3 + 1); col := 7 mod (3 + 1) |}
  /\ countLines (js "abcdefgh") 3 = len (js "abcdefgh") / (3 + 1) + 1.
Proof.
  apply (offsetToColRow_plain_text (js "abcdefgh") 7 3).
  - lia.
  - vm_compute. split; discriminate.
  - intros c H. simpl in H.
    repeat (destruct H as [<-|H];
            [repeat split; first [reflexivity | discriminate]|]).
    destruct H.
Defined.

Lemma calcWidth_classes_witness : calcWidth [97] = 1.
Proof. apply (proj2 (proj2 (proj2 (calcWidth_classes 97)))). lia. Defined.

Lemma removeANSI_length_fixed_witness : removeANSI (js "plain") = js "plain".
Proof.
  apply (proj2 (removeANSI_length_fixed (js "plain"))).
  intros (pre & w & post & Heq & (ps & f & -> & _)).
  assert (Hin : In ESC (js "plain")).
  { rewrite Heq. apply in_or_app. right. left. reflexivity. }
  simpl in Hin. destruct Hin as [H|[H|[H|[H|[H|[]]]]]]; discriminate.
Defined.

Lemma getSharedFragment_result_witness :
  startsWith (js "gre") (js "g") = true
  /\ (js "gre" = js "g"
      \/ ((length (js "g") < length (js "gre"))%nat
          /\ forall c, In c [js "grep"; js "great"] ->
                       startsWith c (js "gre") = true)).
Proof.
  apply (proj2 (getSharedFragment_result (js "g") [js "grep"; js "great"])).
  reflexivity.
Defined.
